(** * A chained hash table of contacts (hash_table.py)

    Shallow embedding of the classes [Contact], [Node] and [HashTable] and
    of the methods of [HashTable], followed by the properties of the
    insert / search / print_table interface.

    Python integers are unbounded: they are [Z], without wrap-around.
    Python strings are [string], with characters of one byte; [ord] of a
    character is its code, and nothing below depends on the range of the
    codes. A chain of [Node] objects is owned by its bucket slot and no node
    is shared, so a chain is a value: a node holds its successor, and a
    mutation through a reference into a chain is the chain with the change.
    A method runs in a small state-and-exception monad over a [world]: the
    receiver object [self], the lines written to standard output so far, and
    a counter of executed [while]-loop bodies (the steps of chain walks). *)

From Stdlib Require Import ZArith String Ascii List Lia DecimalString.
From stdpp Require Import base list strings.

Open Scope Z_scope.

(** ** Python objects *)

Module Contact.

Record t := mk { name : string; number : string }.

(** [__str__]: the f-string [{self.name}: {self.number}]. *)
Definition str (self : t) : string :=
  name self +:+ ": " +:+ number self.

End Contact.

Module Node.

(** A chain node. [next] is the following node or [None]; a bucket slot of
    the table has the same type [option Node.t]. *)
#[warnings="-register-all"]
Inductive t := mk { key : string; value : Contact.t; next : option t }.

End Node.

(** ** Exceptions, outcomes and the method monad *)

Inductive exn :=
| ValueError (msg : string)
| ZeroDivisionError
| IndexError.

Inductive outcome (A : Type) :=
| Return (a : A)
| Raise (e : exn).

Arguments Return {A} a.
Arguments Raise {A} e.

(** The state a method of a class [S] runs in. *)
Record world (S : Type) := World {
  self : S;
  stdout : list string;
  ticks : nat
}.

Arguments World {S} self stdout ticks.
Arguments self {S} w.
Arguments stdout {S} w.
Arguments ticks {S} w.

Definition M (S A : Type) : Type := world S -> outcome A * world S.

Definition ret {S A} (a : A) : M S A := fun w => (Return a, w).

Definition raise {S A} (e : exn) : M S A := fun w => (Raise e, w).

Definition bind {S A B} (m : M S A) (f : A -> M S B) : M S B :=
  fun w =>
    match m w with
    | (Return a, w') => f a w'
    | (Raise e, w') => (Raise e, w')
    end.

Declare Scope py_scope.
Delimit Scope py_scope with py.
Notation "x <- m ;; f" := (bind m (fun x => f))
  (at level 100, m at next level, right associativity) : py_scope.
Notation "m ;;; f" := (bind m (fun _ => f))
  (at level 100, right associativity) : py_scope.
Open Scope py_scope.

(** Lifting of a pure computation that may raise. *)
Definition lift {S A} (o : outcome A) : M S A := fun w => (o, w).

(** Reading an attribute of [self], and replacing [self] after a mutation. *)
Definition gets {S A} (f : S -> A) : M S A := fun w => (Return (f (self w)), w).

Definition modify {S} (f : S -> S) : M S unit :=
  fun w => (Return tt, World (f (self w)) (stdout w) (ticks w)).

(** [print(line)]: one more line on standard output. *)
Definition print {S} (line : string) : M S unit :=
  fun w => (Return tt, World (self w) (stdout w ++ [line]) (ticks w)).

(** One execution of the body of a [while] loop. *)
Definition tick {S} : M S unit :=
  fun w => (Return tt, World (self w) (stdout w) (Datatypes.S (ticks w))).

(** [for x in l: body(x)] *)
Fixpoint for_each {S A} (l : list A) (body : A -> M S unit) : M S unit :=
  match l with
  | [] => ret tt
  | x :: l' => body x ;;; for_each l' body
  end.

(** ** Python list indexing

    [l[i]] with an integer index: a negative index counts from the end, and
    an index outside [-len(l), len(l))] raises [IndexError]. *)

Definition norm_index (len i : Z) : Z := if i <? 0 then i + len else i.

Definition getitem {A} (l : list A) (i : Z) : outcome A :=
  let j := norm_index (Z.of_nat (length l)) i in
  if (0 <=? j) && (j <? Z.of_nat (length l)) then
    match l !! Z.to_nat j with
    | Some x => Return x
    | None => Raise IndexError
    end
  else Raise IndexError.

Definition setitem {A} (l : list A) (i : Z) (x : A) : outcome (list A) :=
  let j := norm_index (Z.of_nat (length l)) i in
  if (0 <=? j) && (j <? Z.of_nat (length l)) then
    Return (<[Z.to_nat j := x]> l)
  else Raise IndexError.

(** [range(n)]: 0, 1, ..., n - 1; empty when [n <= 0]. *)
Definition range (n : Z) : list Z := map Z.of_nat (seq 0 (Z.to_nat n)).

(** [ord(ch)] and [str(i)] for an integer [i]. *)
Definition ord (ch : ascii) : Z := Z.of_nat (nat_of_ascii ch).

Definition str_int (i : Z) : string := NilZero.string_of_int (Z.to_int i).

(** ** class HashTable *)

Module HashTable.

(** The attributes: [data] holds, per slot, [None] or the head of a chain. *)
Record t := mk { size : Z; data : list (option Node.t) }.

(** A method of the class, returning an [A]. *)
Definition method (A : Type) : Type := M t A.

(** [__init__]: the constructed object, or [ValueError]. *)
Definition init (size : Z) : outcome t :=
  if size <=? 0 then Raise (ValueError "HashTable size must be > 0")
  else Return (mk size (replicate (Z.to_nat size) None)).

(** [self.data[i]] and [self.data[i] = x]. *)
Definition data_get (i : Z) : method (option Node.t) :=
  d <- gets data ;; lift (getitem d i).

Definition data_set (i : Z) (x : option Node.t) : method unit :=
  d <- gets data ;;
  d' <- lift (setitem d i x) ;;
  modify (fun s => mk (size s) d').

(** The [for ch in key: total += ord(ch)] loop, from [total = 0]. *)
Definition hash_total (key : string) : Z :=
  fold_left (fun total ch => total + ord ch) (list_ascii_of_string key) 0.

(** [total % self.size]; Python's [%] takes the sign of the divisor, as
    [Z.modulo] does, and raises on a zero divisor. *)
Definition hash_function (key : string) : method Z :=
  let total := hash_total key in
  size <- gets size ;;
  if size =? 0 then raise ZeroDivisionError else ret (total mod size).

(** A fresh [Node(key, Contact(key, number))]. *)
Definition new_node (key number : string) : Node.t :=
  Node.mk key (Contact.mk key number) None.

(** The [while current is not None] loop of [insert], entered at a node
    [current]. The nodes are owned by the chain, so the mutation of a node
    reached through [current] is the chain rebuilt around the changed node;
    the result is the chain that hangs from [current] after the loop and
    the assignment that follows it. *)
Fixpoint insert_loop (key number : string) (current : Node.t) : method Node.t :=
  tick ;;;
  if String.eqb (Node.key current) key then
    (* current.value.number = number; return *)
    ret (Node.mk (Node.key current)
                 (Contact.mk (Contact.name (Node.value current)) number)
                 (Node.next current))
  else
    match Node.next current with
    | None =>
        (* break; current.next = Node(key, Contact(key, number)) *)
        ret (Node.mk (Node.key current) (Node.value current)
                     (Some (new_node key number)))
    | Some nxt =>
        (* current = current.next *)
        nxt' <- insert_loop key number nxt ;;
        ret (Node.mk (Node.key current) (Node.value current) (Some nxt'))
    end.

(** [insert]. On an empty bucket the new node is stored in the slot. On a
    chain the loop mutates nodes that the slot reaches; the slot of the
    value model receives the chain so changed. *)
Definition insert (key number : string) : method unit :=
  index <- hash_function key ;;
  head <- data_get index ;;
  match head with
  | None => data_set index (Some (new_node key number))
  | Some current =>
      chain <- insert_loop key number current ;;
      data_set index (Some chain)
  end.

(** The [while current is not None] loop of [search], entered at a node. *)
Fixpoint search_loop (key : string) (current : Node.t) : method (option Contact.t) :=
  tick ;;;
  if String.eqb (Node.key current) key then ret (Some (Node.value current))
  else
    match Node.next current with
    | None => ret None
    | Some nxt => search_loop key nxt
    end.

Definition search (key : string) : method (option Contact.t) :=
  index <- hash_function key ;;
  current <- data_get index ;;
  match current with
  | None => ret None
  | Some n => search_loop key n
  end.

(** The inner [while] loop of [print_table]: [line] grows by one record
    per node. *)
Fixpoint print_loop (line : string) (current : Node.t) : method string :=
  tick ;;;
  let line := line +:+ " - " +:+ Contact.str (Node.value current) in
  match Node.next current with
  | None => ret line
  | Some nxt => print_loop line nxt
  end.

(** The body of [for i in range(self.size)]. *)
Definition print_bucket (i : Z) : method unit :=
  current <- data_get i ;;
  match current with
  | None => print ("Index " +:+ str_int i +:+ ": Empty")
  | Some n =>
      line <- print_loop ("Index " +:+ str_int i +:+ ":") n ;;
      print line
  end.

Definition print_table : method unit :=
  size <- gets size ;;
  for_each (range size) print_bucket.

End HashTable.

Import HashTable.

(** ** The contents of a table, as lists

    The records of a chain in chain order, and the functions on such lists
    that the loops of [insert] and [search] compute. *)

Definition entry : Type := string * Contact.t.

Fixpoint nodes (n : Node.t) : list entry :=
  (Node.key n, Node.value n) ::
  match Node.next n with
  | None => []
  | Some m => nodes m
  end.

Definition chain (slot : option Node.t) : list entry :=
  match slot with
  | None => []
  | Some n => nodes n
  end.

Definition keys (slot : option Node.t) : list string := map fst (chain slot).

(** The first record of a list with a given key. *)
Fixpoint find_key (key : string) (l : list entry) : option Contact.t :=
  match l with
  | [] => None
  | (k, c) :: r => if String.eqb k key then Some c else find_key key r
  end.

(** Update of the number of the first record with a given key, or a new
    record at the end. *)
Fixpoint upsert (key number : string) (l : list entry) : list entry :=
  match l with
  | [] => [(key, Contact.mk key number)]
  | (k, c) :: r =>
      if String.eqb k key then (k, Contact.mk (Contact.name c) number) :: r
      else (k, c) :: upsert key number r
  end.

(** The number of nodes a walk looking for [key] visits. *)
Fixpoint visited (key : string) (l : list entry) : nat :=
  match l with
  | [] => 0
  | (k, _) :: r => if String.eqb k key then 1 else Datatypes.S (visited key r)
  end.

(** The number of records with a given key. *)
Definition count_key (key : string) (l : list entry) : nat :=
  length (filter (fun e => e.1 = key) l).

(** A record with a given key, its number replaced; any other record. *)
Definition set_number (key number : string) (e : entry) : entry :=
  if String.eqb e.1 key then (e.1, Contact.mk (Contact.name e.2) number)
  else e.

(** The sum of the character codes of a string, by recursion on it. *)
Fixpoint code_sum (key : string) : Z :=
  match key with
  | EmptyString => 0
  | String ch rest => ord ch + code_sum rest
  end.

(** The bucket index of a key in a table. *)
Definition hash_index (t : HashTable.t) (key : string) : Z :=
  code_sum key mod size t.

(** The slot of a key, and all the records of a table. *)
Definition slot_of (t : HashTable.t) (key : string) : option Node.t :=
  default None (data t !! Z.to_nat (hash_index t key)).

Definition all_entries (t : HashTable.t) : list entry :=
  concat (map chain (data t)).

(** ** Runs of methods *)

Definition state : Type := world HashTable.t.

Definition add_ticks (n : nat) (w : state) : state :=
  World (self w) (stdout w) (n + ticks w)%nat.

(** [insert] of each pair of a list, in order. *)
Definition insert_all (kvs : list (string * string)) : method unit :=
  for_each kvs (fun kv => insert kv.1 kv.2).

(** The states a program can reach: a constructed table, then any calls of
    its methods. *)
Inductive reachable : state -> Prop :=
| reach_init size t out n :
    init size = Return t -> reachable (World t out n)
| reach_hash_function key w :
    reachable w -> reachable (hash_function key w).2
| reach_insert key number w :
    reachable w -> reachable (insert key number w).2
| reach_search key w :
    reachable w -> reachable (search key w).2
| reach_print_table w :
    reachable w -> reachable (print_table w).2.

(** A table whose array has [size] slots, [size] positive. *)
Definition shape_ok (t : HashTable.t) : Prop :=
  0 < size t /\ Z.of_nat (length (data t)) = size t.

(** What a walk of the bucket of [key] finds. *)
Definition lookup_key (t : HashTable.t) (key : string) : option Contact.t :=
  find_key key (chain (slot_of t key)).

(** The value of the last pair of a list with a given key. *)
Fixpoint last_value (key : string) (kvs : list (string * string))
  : option string :=
  match kvs with
  | [] => None
  | (k, v) :: r =>
      match last_value key r with
      | Some v' => Some v'
      | None => if String.eqb k key then Some v else None
      end
  end.

(** The invariant of the data model. *)
Definition chain_ok (t : HashTable.t) (i : nat) (slot : option Node.t) : Prop :=
  NoDup (keys slot) /\
  forall k c, In (k, c) (chain slot) ->
    hash_index t k = Z.of_nat i /\ Contact.name c = k.

Record table_ok (t : HashTable.t) : Prop := {
  ok_size : 0 < size t;
  ok_length : Z.of_nat (length (data t)) = size t;
  ok_chain : forall i slot, data t !! i = Some slot -> chain_ok t i slot
}.

(** The text of a record, and of the line of bucket [i] with the records
    [es]: the index, then [Empty] or the records, each after a dash. *)
Definition describe_record (e : entry) : string :=
  e.1 +:+ ": " +:+ Contact.number e.2.

Fixpoint describe_records (es : list entry) : string :=
  match es with
  | [] => ""
  | e :: r => " - " +:+ describe_record e +:+ describe_records r
  end.

Definition describe_bucket (i : Z) (es : list entry) : string :=
  match es with
  | [] => "Index " +:+ str_int i +:+ ": Empty"
  | _ => ("Index " +:+ str_int i +:+ ":") +:+ describe_records es
  end.

Definition describe_table (t : HashTable.t) : list string :=
  imap (fun i slot => describe_bucket (Z.of_nat i) (chain slot)) (data t).

(** A method that writes nothing: what a producer of a sequence, as
    opposed to a printing procedure, would be. *)
Definition writes_nothing {A} (m : method A) : Prop :=
  forall w, reachable w -> stdout (m w).2 = stdout w.

(** The line [print_table] writes for bucket [i]. *)
Definition render_bucket (i : Z) (slot : option Node.t) : string :=
  match slot with
  | None => "Index " +:+ str_int i +:+ ": Empty"
  | Some _ =>
      fold_left (fun line e => line +:+ " - " +:+ Contact.str e.2)
                (chain slot) ("Index " +:+ str_int i +:+ ":")
  end.

Definition render_table (t : HashTable.t) : list string :=
  imap (fun i slot => render_bucket (Z.of_nat i) slot) (data t).

(** ** The table after an insert, as a function of the table *)

(** The chain with given records. *)
Fixpoint to_slot (es : list entry) : option Node.t :=
  match es with
  | [] => None
  | (k, c) :: r => Some (Node.mk k c (to_slot r))
  end.

(** The attributes of the receiver after [insert(key, number)]. *)
Definition insert_table (key number : string) (t : HashTable.t)
  : HashTable.t :=
  HashTable.mk (size t)
    (<[Z.to_nat (hash_index t key) :=
         to_slot (upsert key number (chain (slot_of t key)))]> (data t)).

(** The record that [insert] makes of a pair, and the pairs of a list whose
    key has bucket index [i] in a table of capacity [sz]. *)
Definition entry_of (kv : string * string) : entry :=
  (kv.1, Contact.mk kv.1 kv.2).

Definition bucket_pairs (sz : Z) (i : nat) (kvs : list (string * string))
  : list (string * string) :=
  filter (fun kv => code_sum kv.1 mod sz = Z.of_nat i) kvs.

(** ** Example states: the scenario of the demonstration, capacity 10 *)

Definition empty10 : state := World (HashTable.mk 10 (replicate 10 None)) [] 0.

Definition after_john : state := (insert "John" "909-876-1234" empty10).2.

Definition after_rebecca : state :=
  (insert "Rebecca" "111-555-0002" after_john).2.

Definition after_amy : state := (insert "Amy" "111-222-3333" after_rebecca).2.

Definition after_may : state := (insert "May" "222-333-1111" after_amy).2.

Definition after_update : state :=
  (insert "Rebecca" "999-444-9999" after_may).2.

(** The example states are reachable: a construction, then inserts. *)
Ltac reach_example :=
  cbv delta [after_update after_may after_amy after_rebecca after_john];
  repeat apply reach_insert; apply (reach_init 10); reflexivity.

(** ** Basic facts *)

Lemma node_ind' (P : Node.t -> Prop) :
  (forall k v, P (Node.mk k v None)) ->
  (forall k v n, P n -> P (Node.mk k v (Some n))) ->
  forall n, P n.
Proof.
  intros Hlast Hcons. fix IH 1. intros [k v [n|]].
  - apply Hcons, IH.
  - apply Hlast.
Qed.

Lemma nodes_nonempty n : nodes n <> [].
Proof. destruct n; discriminate. Qed.

Lemma hash_total_acc l a :
  fold_left (fun total ch => total + ord ch) l a =
  a + fold_left (fun total ch => total + ord ch) l 0.
Proof.
  revert a. induction l as [|ch l IH]; intros a; simpl; [lia|].
  rewrite (IH (a + ord ch)), (IH (0 + ord ch)). lia.
Qed.

Lemma hash_total_code_sum key : hash_total key = code_sum key.
Proof.
  unfold hash_total. induction key as [|ch key IH]; simpl; [done|].
  rewrite hash_total_acc, IH. lia.
Qed.

(** ** What each method computes *)

Section Runs.

Variable w : state.
Let t := self w.

Lemma hash_function_run key :
  size t <> 0 ->
  hash_function key w = (Return (hash_index t key), w).
Proof.
  intros Hsz. unfold hash_function, bind, gets, hash_index. fold t.
  rewrite hash_total_code_sum.
  destruct (size t =? 0) eqn:E; [apply Z.eqb_eq in E; done | done].
Qed.

Lemma data_get_run i slot :
  0 <= i -> data t !! Z.to_nat i = Some slot ->
  data_get i w = (Return slot, w).
Proof.
  intros Hi Hslot. unfold data_get, bind, gets, lift, getitem, norm_index.
  fold t. apply lookup_lt_Some in Hslot as Hlt.
  destruct (i <? 0) eqn:E; [lia|].
  destruct (0 <=? i) eqn:E1; [|lia].
  destruct (i <? Z.of_nat (length (data t))) eqn:E2; [|lia].
  simpl. by rewrite Hslot.
Qed.

Lemma data_set_run i x :
  0 <= i < Z.of_nat (length (data t)) ->
  data_set i x w =
  (Return tt,
   World (mk (size t) (<[Z.to_nat i := x]> (data t))) (stdout w) (ticks w)).
Proof.
  intros Hi. unfold data_set, bind, gets, lift, setitem, norm_index, modify.
  fold t.
  destruct (i <? 0) eqn:E; [lia|].
  destruct (0 <=? i) eqn:E1; [|lia].
  destruct (i <? Z.of_nat (length (data t))) eqn:E2; [|lia].
  done.
Qed.

End Runs.

Lemma insert_loop_run key number n w :
  exists n',
    insert_loop key number n w =
      (Return n', add_ticks (visited key (nodes n)) w) /\
    nodes n' = upsert key number (nodes n).
Proof.
  revert w. induction n as [k v|k v n IH] using node_ind'; intros w.
  - simpl. unfold bind, tick, ret, add_ticks. simpl.
    destruct (String.eqb k key); simpl; eauto.
  - simpl. unfold bind at 1. unfold tick at 1. simpl.
    destruct (String.eqb k key) eqn:E.
    + unfold ret, add_ticks. simpl. eauto.
    + unfold bind.
      destruct (IH (World (self w) (stdout w) (Datatypes.S (ticks w))))
        as (n' & -> & Hn').
      unfold ret, add_ticks. simpl. eexists. split.
      * do 2 f_equal. f_equal. lia.
      * simpl. by rewrite Hn'.
Qed.

Lemma search_loop_run key n w :
  search_loop key n w =
  (Return (find_key key (nodes n)), add_ticks (visited key (nodes n)) w).
Proof.
  revert w. induction n as [k v|k v n IH] using node_ind'; intros w.
  - simpl. unfold bind, tick, ret, add_ticks. simpl.
    destruct (String.eqb k key); done.
  - simpl. unfold bind at 1. unfold tick at 1. simpl.
    destruct (String.eqb k key) eqn:E.
    + done.
    + rewrite IH. unfold add_ticks. simpl. do 2 f_equal. lia.
Qed.

Lemma print_loop_run line n w :
  print_loop line n w =
  (Return (fold_left (fun line e => line +:+ " - " +:+ Contact.str e.2)
                     (nodes n) line),
   add_ticks (length (nodes n)) w).
Proof.
  revert line w. induction n as [k v|k v n IH] using node_ind'; intros line w.
  - done.
  - simpl. unfold bind at 1. unfold tick at 1. simpl.
    rewrite IH. unfold add_ticks. simpl. do 2 f_equal. lia.
Qed.

(** ** The list functions *)

Section Lists.

Implicit Types (l : list entry) (key number : string).

Lemma visited_le key l : (visited key l <= length l)%nat.
Proof.
  induction l as [|[k c] l IH]; simpl; [lia|].
  destruct (String.eqb k key); lia.
Qed.

Lemma find_key_None key l : find_key key l = None <-> ~ In key (map fst l).
Proof.
  induction l as [|[k c] l IH]; simpl; [tauto|].
  destruct (String.eqb k key) eqn:E.
  - apply String.eqb_eq in E. split; [discriminate | tauto].
  - apply String.eqb_neq in E. tauto.
Qed.

Lemma find_key_In key c l : find_key key l = Some c -> In (key, c) l.
Proof.
  induction l as [|[k c'] l IH]; simpl; [discriminate|].
  destruct (String.eqb k key) eqn:E.
  - apply String.eqb_eq in E. intros [= ->]. left. by subst.
  - auto.
Qed.

Lemma upsert_keys_in key number l :
  In key (map fst l) -> map fst (upsert key number l) = map fst l.
Proof.
  induction l as [|[k c] l IH]; simpl; [tauto|].
  destruct (String.eqb k key) eqn:E; [done|].
  apply String.eqb_neq in E. intros [?|Hin]; [done|].
  simpl. by rewrite IH.
Qed.

Lemma upsert_keys_new key number l :
  ~ In key (map fst l) -> map fst (upsert key number l) = map fst l ++ [key].
Proof.
  induction l as [|[k c] l IH]; simpl; [done|].
  destruct (String.eqb k key) eqn:E.
  - apply String.eqb_eq in E. tauto.
  - intros Hn. simpl. rewrite IH; tauto.
Qed.

Lemma upsert_has_key key number l : In key (map fst (upsert key number l)).
Proof.
  destruct (in_dec string_dec key (map fst l)) as [Hin|Hn].
  - by rewrite upsert_keys_in.
  - rewrite upsert_keys_new by done. apply in_or_app. right. by left.
Qed.

Lemma upsert_length_in key number l :
  In key (map fst l) -> length (upsert key number l) = length l.
Proof.
  intros Hin. pose proof (upsert_keys_in key number l Hin) as Heq.
  apply (f_equal (@length _)) in Heq. by rewrite !List.length_map in Heq.
Qed.

Lemma upsert_NoDup key number l :
  NoDup (map fst l) -> NoDup (map fst (upsert key number l)).
Proof.
  intros Hnd. destruct (in_dec string_dec key (map fst l)) as [Hin|Hn].
  - by rewrite upsert_keys_in.
  - rewrite upsert_keys_new by done.
    apply NoDup_app. split_and!.
    + done.
    + intros x Hx Hx'. apply list_elem_of_In in Hx.
      apply list_elem_of_singleton in Hx'. by subst.
    + apply NoDup_singleton.
Qed.

Lemma upsert_In key number l k c :
  In (k, c) (upsert key number l) ->
  In (k, c) l \/
  k = key /\ Contact.number c = number /\
  (Contact.name c = key \/
   exists c', In (key, c') l /\ Contact.name c = Contact.name c').
Proof.
  induction l as [|[k0 c0] l IH]; simpl.
  - intros [Heq|[]]. simplify_eq. right. simpl. auto.
  - destruct (String.eqb k0 key) eqn:E.
    + apply String.eqb_eq in E. subst k0. intros [Heq|Hin]; [|tauto].
      simplify_eq. right. simpl. split_and!; [done..|]. right. eauto.
    + intros [Heq|Hin]; [simplify_eq; tauto|].
      destruct (IH Hin) as [?|(-> & ? & [?|(c' & ? & ?)])]; [tauto|..];
        right; split_and!; eauto.
Qed.

Lemma find_key_upsert key number l :
  (forall c, In (key, c) l -> Contact.name c = key) ->
  find_key key (upsert key number l) = Some (Contact.mk key number).
Proof.
  induction l as [|[k c] l IH]; simpl; intros Hname.
  - by rewrite String.eqb_refl.
  - destruct (String.eqb k key) eqn:E; simpl; rewrite E.
    + apply String.eqb_eq in E. subst k. by rewrite (Hname c); [|left].
    + apply IH. intros c' Hin. apply Hname. by right.
Qed.

Lemma find_key_upsert_ne key number l key' :
  key' <> key -> find_key key' (upsert key number l) = find_key key' l.
Proof.
  intros Hne. induction l as [|[k c] l IH]; simpl.
  - apply String.eqb_neq in Hne. by rewrite String.eqb_sym, Hne.
  - destruct (String.eqb k key) eqn:E; simpl.
    + apply String.eqb_eq in E. subst k.
      assert (String.eqb key key' = false) as ->; [|done].
      by apply String.eqb_neq.
    + by rewrite IH.
Qed.

Lemma count_key_NoDup key l :
  NoDup (map fst l) -> In key (map fst l) -> count_key key l = 1%nat.
Proof.
  unfold count_key. induction l as [|[k c] l IH]; simpl; [tauto|].
  intros Hnd Hin. apply NoDup_cons in Hnd as [Hk Hnd].
  rewrite list_elem_of_In in Hk. rewrite filter_cons. simpl. destruct (decide (k = key)) as [->|Hne].
  - simpl. f_equal. clear -Hk. induction l as [|[k c] l IH]; [done|].
    simpl in Hk. rewrite filter_cons. simpl.
    destruct (decide (k = key)); [tauto|]. apply IH. tauto.
  - apply IH; [done|]. tauto.
Qed.

Lemma count_key_0 key l : ~ In key (map fst l) -> count_key key l = 0%nat.
Proof.
  unfold count_key. induction l as [|[k c] l IH]; simpl; [done|].
  intros Hn. rewrite filter_cons. simpl.
  destruct (decide (k = key)); [tauto|]. apply IH. tauto.
Qed.

End Lists.

(** ** Runs of the methods on a table of the right shape *)

Lemma hash_index_range t key :
  0 < size t -> 0 <= hash_index t key < size t.
Proof. intros. by apply Z.mod_pos_bound. Qed.

Lemma slot_of_lookup t key :
  shape_ok t -> data t !! Z.to_nat (hash_index t key) = Some (slot_of t key).
Proof.
  intros [Hsz Hlen]. unfold slot_of.
  pose proof (hash_index_range t key Hsz).
  destruct (lookup_lt_is_Some_2 (data t) (Z.to_nat (hash_index t key)))
    as [slot ->]; [lia | done].
Qed.

Lemma insert_run key number w :
  shape_ok (self w) ->
  exists slot',
    insert key number w =
      (Return tt,
       World (mk (size (self w))
                 (<[Z.to_nat (hash_index (self w) key) := slot']>
                    (data (self w))))
             (stdout w)
             (visited key (chain (slot_of (self w) key)) + ticks w)) /\
    chain slot' = upsert key number (chain (slot_of (self w) key)).
Proof.
  intros Hshape. pose proof Hshape as [Hsz Hlen].
  pose proof (hash_index_range (self w) key Hsz) as Hidx.
  pose proof (slot_of_lookup (self w) key Hshape) as Hslot.
  unfold insert. unfold bind at 1.
  rewrite hash_function_run by lia. unfold bind at 1.
  rewrite (data_get_run w _ _ (proj1 Hidx) Hslot).
  destruct (slot_of (self w) key) as [n|].
  - unfold bind.
    destruct (insert_loop_run key number n w) as (n' & -> & Hn').
    exists (Some n'). split; [|done].
    rewrite data_set_run by (simpl; lia). done.
  - exists (Some (new_node key number)). split; [|done].
    rewrite data_set_run by lia. done.
Qed.

Lemma search_run key w :
  shape_ok (self w) ->
  search key w =
  (Return (find_key key (chain (slot_of (self w) key))),
   add_ticks (visited key (chain (slot_of (self w) key))) w).
Proof.
  intros Hshape. pose proof Hshape as [Hsz Hlen].
  pose proof (hash_index_range (self w) key Hsz) as Hidx.
  pose proof (slot_of_lookup (self w) key Hshape) as Hslot.
  unfold search. unfold bind at 1.
  rewrite hash_function_run by lia. unfold bind at 1.
  rewrite (data_get_run w _ _ (proj1 Hidx) Hslot).
  destruct (slot_of (self w) key) as [n|].
  - apply search_loop_run.
  - unfold ret, add_ticks. by destruct w.
Qed.

Lemma print_bucket_run i slot w :
  data (self w) !! i = Some slot ->
  print_bucket (Z.of_nat i) w =
  (Return tt,
   World (self w) (stdout w ++ [render_bucket (Z.of_nat i) slot])
         (length (chain slot) + ticks w)).
Proof.
  intros Hslot. unfold print_bucket. unfold bind at 1.
  rewrite (data_get_run w (Z.of_nat i) slot); [|lia|by rewrite Nat2Z.id].
  destruct slot as [n|].
  - unfold bind. rewrite print_loop_run. done.
  - done.
Qed.

Lemma print_buckets_run pre rest w :
  data (self w) = pre ++ rest ->
  for_each (map Z.of_nat (seq (length pre) (length rest))) print_bucket w =
  (Return tt,
   World (self w)
         (stdout w ++
          imap (fun i slot => render_bucket (Z.of_nat (length pre + i)) slot)
               rest)
         (length (concat (map chain rest)) + ticks w)).
Proof.
  revert pre w. induction rest as [|slot rest IH]; intros pre w Hdata.
  - simpl. unfold ret. rewrite app_nil_r. by destruct w.
  - simpl. unfold bind.
    rewrite (print_bucket_run (length pre) slot).
    2:{ rewrite Hdata. by apply list_lookup_middle. }
    specialize (IH (pre ++ [slot])
      (World (self w)
             (stdout w ++ [render_bucket (Z.of_nat (length pre)) slot])
             (length (chain slot) + ticks w))).
    rewrite length_app in IH. simpl in IH.
    replace (length pre + 1)%nat with (Datatypes.S (length pre)) in IH by lia.
    rewrite IH by (by rewrite Hdata, <- app_assoc).
    f_equal. f_equal.
    + rewrite <- app_assoc. simpl. do 2 f_equal.
      * by rewrite Nat.add_0_r.
      * apply imap_ext. intros j x _. simpl. do 2 f_equal. lia.
    + rewrite length_app. lia.
Qed.

Lemma print_table_run w :
  shape_ok (self w) ->
  print_table w =
  (Return tt,
   World (self w) (stdout w ++ render_table (self w))
         (length (all_entries (self w)) + ticks w)).
Proof.
  intros [Hsz Hlen]. unfold print_table, bind, gets, range.
  rewrite <- Hlen, Nat2Z.id.
  apply (print_buckets_run [] (data (self w)) w). done.
Qed.

(** ** The invariant *)

Lemma table_ok_shape t : table_ok t -> shape_ok t.
Proof. intros [? ? ?]. by split. Qed.

Lemma init_ok size t : init size = Return t -> table_ok t.
Proof.
  unfold init. destruct (size <=? 0) eqn:E; [discriminate|].
  intros [= <-]. split; simpl.
  - lia.
  - rewrite length_replicate. lia.
  - intros i slot [-> _]%lookup_replicate. split; [constructor | intros ? ? []].
Qed.

Lemma insert_ok key number w :
  table_ok (self w) -> table_ok (self (insert key number w).2).
Proof.
  intros Hok. pose proof (table_ok_shape _ Hok) as Hshape.
  destruct (insert_run key number w Hshape) as (slot' & -> & Hslot').
  destruct Hok as [Hsz Hlen Hchain]. simpl. split; simpl.
  - done.
  - by rewrite length_insert.
  - intros i slot Hi.
    destruct (decide (i = Z.to_nat (hash_index (self w) key))) as [->|Hne].
    + rewrite list_lookup_insert_eq in Hi.
      2:{ pose proof (hash_index_range (self w) key Hsz). lia. }
      injection Hi as <-.
      destruct (Hchain _ _ (slot_of_lookup _ key Hshape)) as [Hnd Hin].
      split.
      * unfold keys. rewrite Hslot'. by apply upsert_NoDup.
      * intros k c Hkc. rewrite Hslot' in Hkc.
        apply upsert_In in Hkc
          as [Hold|(-> & _ & [Hname|(c' & Hold & Hname)])].
        -- apply (Hin k c Hold).
        -- split; [|done]. pose proof (hash_index_range (self w) key Hsz).
           unfold hash_index in *. simpl. lia.
        -- split.
           ++ pose proof (hash_index_range (self w) key Hsz).
              unfold hash_index in *. simpl. lia.
           ++ rewrite Hname. apply (Hin key c' Hold).
    + rewrite list_lookup_insert_ne in Hi by done.
      apply (Hchain i slot Hi).
Qed.

Lemma search_self key w : shape_ok (self w) -> self (search key w).2 = self w.
Proof. intros Hshape. by rewrite search_run. Qed.

Lemma print_table_self w :
  shape_ok (self w) -> self (print_table w).2 = self w.
Proof. intros Hshape. by rewrite print_table_run. Qed.

Lemma hash_function_self key w :
  shape_ok (self w) -> self (hash_function key w).2 = self w.
Proof. intros [Hsz _]. by rewrite hash_function_run by lia. Qed.

Lemma reachable_ok w : reachable w -> table_ok (self w).
Proof.
  induction 1 as [size t out n Hinit|key w _ IH|key number w _ IH
                 |key w _ IH|w _ IH].
  - by apply (init_ok size).
  - by rewrite hash_function_self by by apply table_ok_shape.
  - by apply insert_ok.
  - by rewrite search_self by by apply table_ok_shape.
  - by rewrite print_table_self by by apply table_ok_shape.
Qed.

(** ** Lookups after an insert *)

Lemma slot_of_insert key number w key' :
  shape_ok (self w) ->
  hash_index (self w) key' = hash_index (self w) key ->
  chain (slot_of (self (insert key number w).2) key') =
  upsert key number (chain (slot_of (self w) key)).
Proof.
  intros Hshape Heq.
  destruct (insert_run key number w Hshape) as (slot' & -> & Hslot').
  simpl. unfold slot_of at 1. unfold hash_index at 1. simpl.
  fold (hash_index (self w) key'). rewrite Heq.
  rewrite list_lookup_insert_eq; [done|].
  destruct Hshape as [Hsz Hlen].
  pose proof (hash_index_range (self w) key Hsz). lia.
Qed.

Lemma slot_of_insert_ne key number w key' :
  shape_ok (self w) ->
  hash_index (self w) key' <> hash_index (self w) key ->
  slot_of (self (insert key number w).2) key' = slot_of (self w) key'.
Proof.
  intros Hshape Hne.
  destruct (insert_run key number w Hshape) as (slot' & -> & Hslot').
  simpl. unfold slot_of. unfold hash_index at 1. simpl.
  fold (hash_index (self w) key').
  rewrite list_lookup_insert_ne; [done|].
  destruct Hshape as [Hsz Hlen].
  pose proof (hash_index_range (self w) key Hsz).
  pose proof (hash_index_range (self w) key' Hsz). lia.
Qed.

Lemma lookup_key_insert key number w :
  table_ok (self w) ->
  lookup_key (self (insert key number w).2) key =
  Some (Contact.mk key number).
Proof.
  intros Hok. pose proof (table_ok_shape _ Hok) as Hshape.
  unfold lookup_key. rewrite slot_of_insert by done.
  apply find_key_upsert. intros c Hc.
  destruct Hok as [_ _ Hchain].
  destruct (Hchain _ _ (slot_of_lookup _ key Hshape)) as [_ Hin].
  apply (Hin key c Hc).
Qed.

Lemma lookup_key_insert_ne key number w key' :
  shape_ok (self w) -> key' <> key ->
  lookup_key (self (insert key number w).2) key' = lookup_key (self w) key'.
Proof.
  intros Hshape Hne. unfold lookup_key.
  destruct (decide (hash_index (self w) key' = hash_index (self w) key))
    as [Heq|Hidx].
  - rewrite slot_of_insert by done. rewrite find_key_upsert_ne by done.
    unfold slot_of. by rewrite Heq.
  - by rewrite slot_of_insert_ne.
Qed.

Lemma insert_returns key number w :
  shape_ok (self w) ->
  insert key number w = (Return tt, (insert key number w).2).
Proof.
  intros Hshape.
  by destruct (insert_run key number w Hshape) as (slot' & -> & _).
Qed.

Lemma last_value_None key kvs :
  ~ In key (map fst kvs) -> last_value key kvs = None.
Proof.
  induction kvs as [|[k v] kvs IH]; simpl; [done|].
  intros Hn. rewrite IH by tauto.
  destruct (String.eqb k key) eqn:E; [|done].
  apply String.eqb_eq in E. tauto.
Qed.

Lemma last_value_In key v kvs :
  NoDup (map fst kvs) -> In (key, v) kvs -> last_value key kvs = Some v.
Proof.
  induction kvs as [|[k0 v0] kvs IH]; simpl; [tauto|].
  intros [Hk Hnd]%NoDup_cons [Heq|Hin].
  - simplify_eq. rewrite last_value_None by by rewrite <- list_elem_of_In.
    by rewrite String.eqb_refl.
  - by rewrite IH.
Qed.

Lemma insert_all_run kvs w :
  table_ok (self w) ->
  exists w',
    insert_all kvs w = (Return tt, w') /\
    table_ok (self w') /\
    stdout w' = stdout w /\
    forall key,
      lookup_key (self w') key =
      match last_value key kvs with
      | Some v => Some (Contact.mk key v)
      | None => lookup_key (self w) key
      end.
Proof.
  revert w. induction kvs as [|[k v] kvs IH]; intros w Hok.
  - exists w. by split_and!.
  - pose proof (table_ok_shape _ Hok) as Hshape.
    destruct (IH (insert k v w).2 (insert_ok k v w Hok))
      as (w' & Hrun & Hok' & Hout & Hlook).
    exists w'. split_and!.
    + unfold insert_all in *. simpl. unfold bind.
      by rewrite (insert_returns k v w Hshape).
    + done.
    + rewrite Hout.
      by destruct (insert_run k v w Hshape) as (slot' & -> & _).
    + intros key. rewrite Hlook. simpl.
      destruct (last_value key kvs); [done|].
      destruct (String.eqb k key) eqn:E.
      * apply String.eqb_eq in E. subst. by apply lookup_key_insert.
      * apply String.eqb_neq in E. by apply lookup_key_insert_ne.
Qed.

Lemma init_lookup_key size t key :
  init size = Return t -> lookup_key t key = None.
Proof.
  intros Hinit. pose proof (init_ok _ _ Hinit) as Hok.
  unfold lookup_key.
  pose proof (slot_of_lookup t key (table_ok_shape _ Hok)) as Hslot.
  unfold init in Hinit. destruct (size <=? 0); [discriminate|].
  injection Hinit as <-. simpl in Hslot.
  apply lookup_replicate in Hslot as [-> _]. done.
Qed.

(** * The claims *)

(** C1. After the pairs of a list are inserted, in order, into a table
    just constructed, [search] of a key of the list returns the record of
    that key with the value of its pair (the keys being distinct, and the
    list not empty), and [search] of a key that is not in the list returns
    [None], whether the list is empty or not. *)
Theorem insert_then_search size t out n kvs :
  init size = Return t ->
  exists w',
    insert_all kvs (World t out n) = (Return tt, w') /\
    (kvs <> [] -> NoDup (map fst kvs) ->
     forall key v, In (key, v) kvs ->
       (search key w').1 = Return (Some (Contact.mk key v))) /\
    (forall key, ~ In key (map fst kvs) -> (search key w').1 = Return None).
Proof.
  intros Hinit.
  destruct (insert_all_run kvs (World t out n) (init_ok _ _ Hinit))
    as (w' & Hrun & Hok & _ & Hlook).
  exists w'. split_and!; [done|..].
  - intros _ Hnd key v Hin.
    rewrite search_run by by apply table_ok_shape. simpl.
    fold (lookup_key (self w') key).
    by rewrite Hlook, (last_value_In key v kvs Hnd Hin).
  - intros key Hn.
    rewrite search_run by by apply table_ok_shape. simpl.
    fold (lookup_key (self w') key).
    rewrite Hlook, last_value_None by done. simpl.
    by rewrite (init_lookup_key size).
Qed.

Lemma insert_then_search_witness :
  init 10 = Return (self empty10) /\
  exists w',
    insert_all [("John", "909-876-1234"); ("Rebecca", "111-555-0002")]
               empty10 = (Return tt, w') /\
    (search "John" w').1 =
      Return (Some (Contact.mk "John" "909-876-1234")) /\
    (search "Chris" w').1 = Return None.
Proof.
  split; [reflexivity|].
  destruct (insert_then_search 10 (self empty10) [] 0
              [("John", "909-876-1234"); ("Rebecca", "111-555-0002")]
              eq_refl) as (w' & Hrun & Hin & Hout).
  exists w'. split; [exact Hrun|]. split.
  - apply Hin; [discriminate| |left; reflexivity].
    apply (bool_decide_unpack _). vm_compute. exact I.
  - apply Hout. intros [H|[H|[]]]; discriminate H.
Defined.

Lemma imap_replicate {A B} (f : nat -> A -> B) n x :
  imap f (replicate n x) = map (fun i => f i x) (seq 0 n).
Proof.
  revert f. induction n as [|n IH]; intros f; simpl; [done|].
  f_equal. rewrite IH, <- seq_shift, map_map. done.
Qed.

(** C3. [HashTable(size)] raises [ValueError] when [size <= 0], and that
    is the only way it fails; for [size >= 1] it returns a table of
    capacity [size] whose slots are all [None]: the table holds no record
    and [print_table] writes [Index i: Empty] for each index. *)
Theorem init_spec (size : Z) :
  (size <= 0 -> exists msg, init size = Raise (ValueError msg)) /\
  (1 <= size ->
   exists t,
     init size = Return t /\
     HashTable.size t = size /\
     data t = replicate (Z.to_nat size) None /\
     all_entries t = [] /\
     forall out n,
       print_table (World t out n) =
       (Return tt,
        World t
          (out ++ map (fun i => "Index " +:+ str_int i +:+ ": Empty")
                      (range size))
          n)) /\
  (forall e, init size = Raise e ->
     size <= 0 /\ exists msg, e = ValueError msg).
Proof.
  unfold init. split_and!.
  - intros Hle. destruct (size <=? 0) eqn:E; [eauto | lia].
  - intros Hge. destruct (size <=? 0) eqn:E; [lia|].
    eexists. split; [done|]. simpl. split_and!; [done..| |].
    + unfold all_entries. simpl.
      induction (Z.to_nat size) as [|m IH]; [done | apply IH].
    + intros out n. rewrite print_table_run by (split; simpl;
        [lia | rewrite length_replicate; lia]).
      simpl. unfold render_table, all_entries. simpl.
      rewrite imap_replicate. unfold range. rewrite map_map. simpl.
      do 2 f_equal.
      induction (Z.to_nat size) as [|m IH]; [done | apply IH].
  - intros e. destruct (size <=? 0) eqn:E; [|discriminate].
    intros [= <-]. split; [lia | eauto].
Qed.

Lemma init_spec_witness :
  (exists msg, init 0 = Raise (ValueError msg)) /\
  (exists msg, init (-3) = Raise (ValueError msg)) /\
  (exists t, init 2 = Return t /\
     HashTable.size t = 2 /\ data t = [None; None] /\
     all_entries t = [] /\
     forall out n,
       print_table (World t out n) =
       (Return tt,
        World t (out ++ ["Index 0: Empty"; "Index 1: Empty"]) n)).
Proof.
  split; [|split].
  - apply (proj1 (init_spec 0)). lia.
  - apply (proj1 (init_spec (-3))). lia.
  - apply (proj1 (proj2 (init_spec 2))). lia.
Defined.

(** C4. On a constructed table, [hash_function(key)] returns the sum of
    the character codes of [key] modulo the capacity, an index of the
    array, and changes nothing; the empty string has index 0. *)
Theorem hash_function_spec w key :
  reachable w ->
  hash_function key w = (Return (code_sum key mod size (self w)), w) /\
  0 <= code_sum key mod size (self w) < size (self w) /\
  hash_function "" w = (Return 0, w).
Proof.
  intros Hok%reachable_ok. destruct Hok as [Hsz _ _]. split; [|split].
  - rewrite hash_function_run by lia. done.
  - by apply Z.mod_pos_bound.
  - rewrite hash_function_run by lia. done.
Qed.

Lemma hash_function_spec_witness :
  reachable after_john /\
  hash_function "Amy" after_john = (Return 5, after_john) /\
  0 <= 5 < 10 /\
  hash_function "" after_john = (Return 0, after_john).
Proof.
  assert (Hreach : reachable after_john).
  { reach_example. }
  split; [exact Hreach|].
  exact (hash_function_spec after_john "Amy" Hreach).
Defined.

(** ** One record per key *)

Lemma upsert_set_number key number (l : list entry) :
  NoDup (map fst l) -> In key (map fst l) ->
  upsert key number l = map (set_number key number) l.
Proof.
  induction l as [|[k c] l IH]; simpl; [tauto|].
  intros [Hk Hnd]%NoDup_cons Hin. unfold set_number at 1. simpl.
  destruct (String.eqb k key) eqn:E.
  - apply String.eqb_eq in E. subst k. f_equal.
    clear -Hk. induction l as [|[k c] l IH]; [done|].
    apply not_elem_of_cons in Hk as [Hne Hk]. simpl.
    unfold set_number at 1. simpl.
    assert (String.eqb k key = false) as -> by by apply String.eqb_neq.
    f_equal. by apply IH.
  - apply String.eqb_neq in E. f_equal. apply IH; [done | tauto].
Qed.

Lemma count_key_app key (l1 l2 : list entry) :
  count_key key (l1 ++ l2) = (count_key key l1 + count_key key l2)%nat.
Proof. unfold count_key. by rewrite filter_app, length_app. Qed.

Lemma count_key_concat_0 key (ds : list (option Node.t)) :
  (forall slot, slot ∈ ds -> ~ In key (keys slot)) ->
  count_key key (concat (map chain ds)) = 0%nat.
Proof.
  induction ds as [|slot ds IH]; intros Hds; simpl; [done|].
  rewrite count_key_app, IH.
  - rewrite count_key_0; [done|]. apply Hds. by left.
  - intros slot' Hin. apply Hds. by right.
Qed.

Lemma count_key_table t key :
  table_ok t -> In key (keys (slot_of t key)) ->
  count_key key (all_entries t) = 1%nat.
Proof.
  intros Hok Hin. pose proof (table_ok_shape _ Hok) as Hshape.
  pose proof (slot_of_lookup t key Hshape) as Hslot.
  destruct Hok as [Hsz Hlen Hchain].
  pose proof (hash_index_range t key Hsz) as Hidx.
  assert (Hother : forall j slot, data t !! j = Some slot ->
            j <> Z.to_nat (hash_index t key) -> ~ In key (keys slot)).
  { intros j slot Hj Hne Hkey. unfold keys in Hkey.
    apply in_map_iff in Hkey as ([k c] & Heq & Hkc). simpl in Heq. subst k.
    destruct (Hchain j slot Hj) as [_ Hhash].
    destruct (Hhash key c Hkc) as [Hh _]. lia. }
  unfold all_entries. rewrite <- (take_drop_middle _ _ _ Hslot).
  rewrite map_app, concat_app. simpl.
  rewrite !count_key_app, !count_key_concat_0.
  - rewrite count_key_NoDup; [done| |done].
    by destruct (Hchain _ _ Hslot) as [Hnd _].
  - intros slot (j & Hj)%list_elem_of_lookup. rewrite lookup_drop in Hj.
    apply (Hother _ _ Hj). lia.
  - intros slot (j & Hj & Hlt)%elem_of_take. apply (Hother _ _ Hj). lia.
Qed.

(** C2. On a reachable table, two inserts of one key succeed, and after
    the second the table holds exactly one record with that key, with the
    second value; the second insert leaves the chain of the bucket with
    its length and its sequence of keys, changing in it nothing but the
    number of that record. *)
Theorem insert_twice w key v1 v2 :
  reachable w ->
  let w1 := (insert key v1 w).2 in
  let w2 := (insert key v2 w1).2 in
  insert key v1 w = (Return tt, w1) /\
  insert key v2 w1 = (Return tt, w2) /\
  count_key key (all_entries (self w2)) = 1%nat /\
  In (key, Contact.mk key v2) (all_entries (self w2)) /\
  (search key w2).1 = Return (Some (Contact.mk key v2)) /\
  length (chain (slot_of (self w2) key)) =
    length (chain (slot_of (self w1) key)) /\
  keys (slot_of (self w2) key) = keys (slot_of (self w1) key) /\
  chain (slot_of (self w2) key) =
    map (set_number key v2) (chain (slot_of (self w1) key)).
Proof.
  intros Hreach w1 w2.
  pose proof (reachable_ok _ Hreach) as Hok.
  pose proof (insert_ok key v1 w Hok) as Hok1. fold w1 in Hok1.
  pose proof (insert_ok key v2 w1 Hok1) as Hok2. fold w2 in Hok2.
  pose proof (table_ok_shape _ Hok) as Hshape.
  pose proof (table_ok_shape _ Hok1) as Hshape1.
  pose proof (table_ok_shape _ Hok2) as Hshape2.
  assert (Hin1 : In key (keys (slot_of (self w1) key))).
  { unfold keys, w1. rewrite slot_of_insert by done. apply upsert_has_key. }
  assert (Hchain2 : chain (slot_of (self w2) key) =
                    upsert key v2 (chain (slot_of (self w1) key))).
  { unfold w2. by rewrite slot_of_insert. }
  assert (Hkeys : keys (slot_of (self w2) key) = keys (slot_of (self w1) key)).
  { unfold keys at 1. rewrite Hchain2. by apply upsert_keys_in. }
  assert (Hlook : lookup_key (self w2) key = Some (Contact.mk key v2))
    by by apply lookup_key_insert.
  split_and!.
  - by apply insert_returns.
  - by apply insert_returns.
  - apply count_key_table; [done|]. by rewrite Hkeys.
  - apply find_key_In in Hlook. unfold all_entries.
    apply in_concat. exists (chain (slot_of (self w2) key)). split; [|done].
    apply in_map, list_elem_of_In, list_elem_of_lookup.
    eexists. by apply slot_of_lookup.
  - rewrite search_run by done. simpl. by f_equal.
  - rewrite Hchain2. by apply upsert_length_in.
  - done.
  - rewrite Hchain2. apply upsert_set_number; [|done].
    destruct Hok1 as [_ _ Hc].
    by destruct (Hc _ _ (slot_of_lookup _ key Hshape1)) as [Hnd _].
Qed.

Lemma insert_twice_witness :
  reachable after_john /\
  insert "Rebecca" "111-555-0002" after_john = (Return tt, after_rebecca) /\
  insert "Rebecca" "999-444-9999" after_rebecca =
    (Return tt, (insert "Rebecca" "999-444-9999" after_rebecca).2) /\
  count_key "Rebecca"
    (all_entries (self (insert "Rebecca" "999-444-9999" after_rebecca).2)) =
    1%nat.
Proof.
  assert (Hreach : reachable after_john).
  { reach_example. }
  split; [exact Hreach|].
  destruct (insert_twice after_john "Rebecca" "111-555-0002" "999-444-9999"
              Hreach) as (H1 & H2 & H3 & _).
  split; [exact H1|]. split; [exact H2 | exact H3].
Defined.

(** ** What an insert leaves alone *)

Lemma insert_size key number w :
  shape_ok (self w) -> size (self (insert key number w).2) = size (self w).
Proof.
  intros Hshape.
  by destruct (insert_run key number w Hshape) as (slot' & -> & _).
Qed.

Lemma insert_hash_index key number w key' :
  shape_ok (self w) ->
  hash_index (self (insert key number w).2) key' = hash_index (self w) key'.
Proof. intros Hshape. unfold hash_index. by rewrite insert_size. Qed.

(** C5. Two distinct keys whose sums of character codes are congruent
    modulo the capacity, inserted one after the other in a reachable table,
    are in the chain of one bucket, at two positions of it, and [search] of
    each returns the record with its own value. *)
Theorem collision w k1 k2 v1 v2 :
  reachable w ->
  k1 <> k2 ->
  code_sum k1 mod size (self w) = code_sum k2 mod size (self w) ->
  let w1 := (insert k1 v1 w).2 in
  let w2 := (insert k2 v2 w1).2 in
  insert k1 v1 w = (Return tt, w1) /\
  insert k2 v2 w1 = (Return tt, w2) /\
  slot_of (self w2) k1 = slot_of (self w2) k2 /\
  (exists i j,
     i <> j /\
     chain (slot_of (self w2) k1) !! i = Some (k1, Contact.mk k1 v1) /\
     chain (slot_of (self w2) k1) !! j = Some (k2, Contact.mk k2 v2)) /\
  (search k1 w2).1 = Return (Some (Contact.mk k1 v1)) /\
  (search k2 w2).1 = Return (Some (Contact.mk k2 v2)).
Proof.
  intros Hreach Hne Hcong w1 w2.
  pose proof (reachable_ok _ Hreach) as Hok.
  pose proof (insert_ok k1 v1 w Hok) as Hok1. fold w1 in Hok1.
  pose proof (insert_ok k2 v2 w1 Hok1) as Hok2. fold w2 in Hok2.
  pose proof (table_ok_shape _ Hok) as Hshape.
  pose proof (table_ok_shape _ Hok1) as Hshape1.
  pose proof (table_ok_shape _ Hok2) as Hshape2.
  assert (Hslots : slot_of (self w2) k1 = slot_of (self w2) k2).
  { unfold slot_of, w2, w1. rewrite !insert_hash_index by done.
    unfold hash_index. by rewrite Hcong. }
  assert (Hl2 : lookup_key (self w2) k2 = Some (Contact.mk k2 v2))
    by by apply lookup_key_insert.
  assert (Hl1 : lookup_key (self w2) k1 = Some (Contact.mk k1 v1)).
  { unfold w2. rewrite lookup_key_insert_ne by done.
    by apply lookup_key_insert. }
  split_and!.
  - by apply insert_returns.
  - by apply insert_returns.
  - done.
  - apply find_key_In, list_elem_of_In, list_elem_of_lookup in Hl1 as [i Hi].
    apply find_key_In, list_elem_of_In, list_elem_of_lookup in Hl2 as [j Hj].
    rewrite <- Hslots in Hj. exists i, j. split_and!; [|done..].
    intros ->. congruence.
  - rewrite search_run by done. simpl. by f_equal.
  - rewrite search_run by done. simpl. by f_equal.
Qed.

Lemma collision_witness :
  reachable after_rebecca /\
  "Amy" <> "May" /\
  code_sum "Amy" mod 10 = code_sum "May" mod 10 /\
  slot_of (self after_may) "Amy" = slot_of (self after_may) "May" /\
  (exists i j,
     i <> j /\
     chain (slot_of (self after_may) "Amy") !! i =
       Some ("Amy", Contact.mk "Amy" "111-222-3333") /\
     chain (slot_of (self after_may) "Amy") !! j =
       Some ("May", Contact.mk "May" "222-333-1111")) /\
  (search "Amy" after_may).1 =
    Return (Some (Contact.mk "Amy" "111-222-3333")) /\
  (search "May" after_may).1 =
    Return (Some (Contact.mk "May" "222-333-1111")).
Proof.
  assert (Hreach : reachable after_rebecca).
  { reach_example. }
  assert (Hne : "Amy" <> "May") by discriminate.
  split; [exact Hreach|]. split; [exact Hne|]. split; [reflexivity|].
  destruct (collision after_rebecca "Amy" "May" "111-222-3333"
              "222-333-1111" Hreach Hne eq_refl)
    as (_ & _ & H3 & H4 & H5 & H6).
  split; [exact H3|]. split; [exact H4|]. split; [exact H5 | exact H6].
Defined.

(** C6. In a reachable state, whatever the methods called to reach it,
    the keys of the chain of a bucket are pairwise distinct, a key of the
    chain of bucket [i] has hash index [i], and a key of the table is the
    key of exactly one record of the table. *)
Theorem reachable_invariant w :
  reachable w ->
  (forall i slot, data (self w) !! i = Some slot -> NoDup (keys slot)) /\
  (forall i slot key,
     data (self w) !! i = Some slot -> In key (keys slot) ->
     Z.of_nat i = hash_index (self w) key) /\
  (forall key,
     In key (map fst (all_entries (self w))) ->
     count_key key (all_entries (self w)) = 1%nat).
Proof.
  intros Hok%reachable_ok.
  assert (Hhash : forall i slot key,
            data (self w) !! i = Some slot -> In key (keys slot) ->
            Z.of_nat i = hash_index (self w) key).
  { intros i slot key Hi Hkey. destruct Hok as [_ _ Hchain].
    apply in_map_iff in Hkey as ([k c] & Heq & Hkc). simpl in Heq. subst k.
    destruct (Hchain i slot Hi) as [_ Hin].
    by destruct (Hin key c Hkc) as [-> _]. }
  split_and!.
  - intros i slot Hi. destruct Hok as [_ _ Hchain].
    by destruct (Hchain i slot Hi) as [Hnd _].
  - done.
  - intros key Hkey. apply count_key_table; [done|].
    apply in_map_iff in Hkey as ([k c] & Heq & Hkc). simpl in Heq. subst k.
    apply in_concat in Hkc as (es & Hes & Hkc).
    apply in_map_iff in Hes as (slot & <- & Hslot).
    apply list_elem_of_In, list_elem_of_lookup in Hslot as [i Hi].
    assert (Hin : In key (keys slot)).
    { apply in_map_iff. by exists (key, c). }
    pose proof (Hhash i slot key Hi Hin) as Hidx.
    unfold slot_of. rewrite <- Hidx, Nat2Z.id, Hi. done.
Qed.

Lemma reachable_invariant_witness :
  reachable after_may /\
  (forall i slot,
     data (self after_may) !! i = Some slot -> NoDup (keys slot)) /\
  (forall i slot key,
     data (self after_may) !! i = Some slot -> In key (keys slot) ->
     Z.of_nat i = hash_index (self after_may) key) /\
  (forall key,
     In key (map fst (all_entries (self after_may))) ->
     count_key key (all_entries (self after_may)) = 1%nat).
Proof.
  assert (Hreach : reachable after_may).
  { reach_example. }
  split; [exact Hreach|].
  exact (reachable_invariant after_may Hreach).
Defined.

(** ** Frames *)

Lemma hash_function_world key (w : state) : (hash_function key w).2 = w.
Proof.
  unfold hash_function, bind, gets, raise, ret.
  by destruct (size (self w) =? 0).
Qed.

Lemma data_get_world i (w : state) : (data_get i w).2 = w.
Proof. unfold data_get, bind, gets, lift. done. Qed.

Lemma add_ticks_0 (w : state) : add_ticks 0 w = w.
Proof. by destruct w. Qed.

Lemma search_world key (w : state) :
  exists n, (search key w).2 = add_ticks n w.
Proof.
  unfold search, bind.
  pose proof (hash_function_world key w) as Hh.
  destruct (hash_function key w) as [[index|e] w1]; simpl in Hh; subst w1.
  - pose proof (data_get_world index w) as Hd.
    destruct (data_get index w) as [[[n|]|e] w1]; simpl in Hd; subst w1.
    + rewrite search_loop_run. by eexists.
    + exists 0%nat. by rewrite add_ticks_0.
    + exists 0%nat. by rewrite add_ticks_0.
  - exists 0%nat. by rewrite add_ticks_0.
Qed.

(** C8. [search] changes neither the table nor the output, in any state
    and for any key, also when it raises. *)
Theorem search_frame (w : state) key :
  self (search key w).2 = self w /\ stdout (search key w).2 = stdout w.
Proof. by destruct (search_world key w) as [n ->]. Qed.

(** C10. An insert in a reachable state changes no slot of the array but
    the one at the hash index of the key, nor the capacity, the number of
    slots or the output. *)
Theorem insert_frame w key number :
  reachable w ->
  let w' := (insert key number w).2 in
  size (self w') = size (self w) /\
  length (data (self w')) = length (data (self w)) /\
  (forall i,
     Z.of_nat i <> hash_index (self w) key ->
     data (self w') !! i = data (self w) !! i) /\
  stdout w' = stdout w.
Proof.
  intros Hshape%reachable_ok%table_ok_shape w'. unfold w'.
  destruct (insert_run key number w Hshape) as (slot' & -> & _). simpl.
  split_and!; [done| |..|done].
  - by rewrite length_insert.
  - intros i Hne. apply list_lookup_insert_ne.
    destruct Hshape as [Hsz _].
    pose proof (hash_index_range (self w) key Hsz). lia.
Qed.

Lemma insert_frame_witness :
  reachable after_john /\
  size (self after_rebecca) = size (self after_john) /\
  length (data (self after_rebecca)) = length (data (self after_john)) /\
  (forall i,
     Z.of_nat i <> hash_index (self after_john) "Rebecca" ->
     data (self after_rebecca) !! i = data (self after_john) !! i) /\
  stdout after_rebecca = stdout after_john.
Proof.
  assert (Hreach : reachable after_john).
  { reach_example. }
  split; [exact Hreach|].
  exact (insert_frame after_john "Rebecca" "111-555-0002" Hreach).
Defined.

(** C9. In a reachable state [insert], [search] and [print_table] return
    for every key and every number, the empty string included. The walk of
    [insert] and of [search] executes its loop body at most once per node
    of the chain of the bucket of the key; [print_table] executes its inner
    loop body, for each bucket, once per node of the chain of that bucket. *)
Theorem methods_total w key number :
  reachable w ->
  (exists w',
     insert key number w = (Return tt, w') /\
     (ticks w' <= ticks w + length (chain (slot_of (self w) key)))%nat) /\
  (exists r w',
     search key w = (Return r, w') /\
     (ticks w' <= ticks w + length (chain (slot_of (self w) key)))%nat) /\
  (forall i slot,
     data (self w) !! i = Some slot ->
     exists w',
       print_bucket (Z.of_nat i) w = (Return tt, w') /\
       ticks w' = (ticks w + length (chain slot))%nat) /\
  (exists w',
     print_table w = (Return tt, w') /\
     ticks w' = (ticks w + length (all_entries (self w)))%nat).
Proof.
  intros Hshape%reachable_ok%table_ok_shape. split_and!.
  - destruct (insert_run key number w Hshape) as (slot' & -> & _).
    eexists. split; [done|]. simpl.
    pose proof (visited_le key (chain (slot_of (self w) key))). lia.
  - rewrite search_run by done. do 2 eexists. split; [done|]. simpl.
    pose proof (visited_le key (chain (slot_of (self w) key))). lia.
  - intros i slot Hi. rewrite (print_bucket_run i slot w Hi).
    eexists. split; [done|]. simpl. lia.
  - rewrite print_table_run by done. eexists. split; [done|]. simpl. lia.
Qed.

Lemma methods_total_witness :
  reachable after_may /\
  (exists w',
     insert "" "" after_may = (Return tt, w') /\
     (ticks w' <=
      ticks after_may + length (chain (slot_of (self after_may) "")))%nat) /\
  (exists r w',
     search "" after_may = (Return r, w') /\
     (ticks w' <=
      ticks after_may + length (chain (slot_of (self after_may) "")))%nat) /\
  (forall i slot,
     data (self after_may) !! i = Some slot ->
     exists w',
       print_bucket (Z.of_nat i) after_may = (Return tt, w') /\
       ticks w' = (ticks after_may + length (chain slot))%nat) /\
  (exists w',
     print_table after_may = (Return tt, w') /\
     ticks w' = (ticks after_may + length (all_entries (self after_may)))%nat).
Proof.
  assert (Hreach : reachable after_may).
  { reach_example. }
  split; [exact Hreach|].
  exact (methods_total after_may "" "" Hreach).
Defined.

(** ** The text written by print_table *)

Lemma append_assoc (a b c : string) : (a +:+ b) +:+ c = a +:+ b +:+ c.
Proof.
  induction a as [|ch a IH]; [done|].
  change (String ch ((a +:+ b) +:+ c) = String ch (a +:+ b +:+ c)).
  by f_equal.
Qed.

Lemma append_empty_r (a : string) : a +:+ "" = a.
Proof.
  induction a as [|ch a IH]; [done|].
  change (String ch (a +:+ "") = String ch a). by f_equal.
Qed.

Lemma render_records line (es : list entry) :
  (forall k c, In (k, c) es -> Contact.name c = k) ->
  fold_left (fun line e => line +:+ " - " +:+ Contact.str e.2) es line =
  line +:+ describe_records es.
Proof.
  revert line. induction es as [|[k c] es IH]; intros line Hname; simpl.
  - by rewrite append_empty_r.
  - rewrite IH by (intros k' c' Hin; apply Hname; by right).
    unfold Contact.str, describe_record. simpl fst. simpl snd.
    rewrite (Hname k c) by by left. by rewrite !append_assoc.
Qed.

Lemma render_describe_bucket i slot :
  (forall k c, In (k, c) (chain slot) -> Contact.name c = k) ->
  render_bucket i slot = describe_bucket i (chain slot).
Proof.
  intros Hname. destruct slot as [n|]; [|done].
  unfold render_bucket. rewrite render_records by done.
  unfold describe_bucket. pose proof (nodes_nonempty n).
  simpl. by destruct (nodes n).
Qed.

Lemma render_describe_table t :
  table_ok t -> render_table t = describe_table t.
Proof.
  intros [_ _ Hchain]. apply imap_ext. intros i slot Hi.
  apply render_describe_bucket. intros k c Hkc.
  destruct (Hchain i slot Hi) as [_ Hin]. by destruct (Hin k c Hkc).
Qed.

(** C7, as the code has it. [print_table] returns nothing and writes to
    standard output, after what was written before, one line per bucket,
    in the order of the indices from 0 to [size - 1]: [Index i: Empty] for
    an empty bucket, and otherwise [Index i:] followed, for each record of
    the chain in chain order, by a dash and [key: number]. The lines depend
    on the table only, and the table is not changed. *)
Theorem print_table_spec w :
  reachable w ->
  print_table w =
    (Return tt,
     World (self w) (stdout w ++ describe_table (self w))
           (length (all_entries (self w)) + ticks w)) /\
  length (describe_table (self w)) = Z.to_nat (size (self w)) /\
  forall i slot,
    data (self w) !! i = Some slot ->
    describe_table (self w) !! i =
    Some (describe_bucket (Z.of_nat i) (chain slot)).
Proof.
  intros Hok%reachable_ok. split_and!.
  - rewrite print_table_run by by apply table_ok_shape.
    by rewrite render_describe_table.
  - unfold describe_table. rewrite length_imap.
    destruct Hok as [_ Hlen _]. lia.
  - intros i slot Hi. unfold describe_table.
    by rewrite list_lookup_imap, Hi.
Qed.

Lemma print_table_spec_witness :
  reachable after_update /\
  print_table after_update =
    (Return tt,
     World (self after_update)
       ["Index 0: Empty"; "Index 1: Empty"; "Index 2: Empty";
        "Index 3: Empty"; "Index 4: Empty";
        "Index 5: - Amy: 111-222-3333 - May: 222-333-1111";
        "Index 6: Empty"; "Index 7: - Rebecca: 999-444-9999";
        "Index 8: Empty"; "Index 9: - John: 909-876-1234"]
       (4 + ticks after_update)).
Proof.
  assert (Hreach : reachable after_update).
  { reach_example. }
  split; [exact Hreach|].
  exact (proj1 (print_table_spec after_update Hreach)).
Defined.

(** C7, as the specification states it, does not hold of the code:
    [print_table] is not a producer of a sequence that writes nothing. On
    a table of capacity 2 just constructed it returns [None] and has
    written two lines. *)
Lemma print_table_not_a_producer :
  print_table (World (HashTable.mk 2 [None; None]) [] 0) =
    (Return tt,
     World (HashTable.mk 2 [None; None])
           ["Index 0: Empty"; "Index 1: Empty"] 0) /\
  ~ writes_nothing print_table.
Proof.
  split; [reflexivity|]. intros H.
  specialize (H (World (HashTable.mk 2 [None; None]) [] 0)
                (reach_init 2 _ [] 0%nat eq_refl)).
  vm_compute in H. discriminate H.
Qed.

(** * Further properties of the methods *)

(** ** Chains and lists of records *)

Lemma chain_to_slot (es : list entry) : chain (to_slot es) = es.
Proof.
  induction es as [|[k c] es IH]; [done|].
  simpl. f_equal. simpl in IH. by destruct (to_slot es).
Qed.

Lemma to_slot_chain slot : to_slot (chain slot) = slot.
Proof.
  destruct slot as [n|]; [|done]. simpl.
  induction n as [k v|k v n IH] using node_ind'; simpl; [done|].
  simpl in IH. by rewrite IH.
Qed.

Lemma chain_inj s1 s2 : chain s1 = chain s2 -> s1 = s2.
Proof.
  intros Heq. by rewrite <- (to_slot_chain s1), Heq, to_slot_chain.
Qed.

Lemma insert_self key number w :
  shape_ok (self w) ->
  self (insert key number w).2 = insert_table key number (self w).
Proof.
  intros Hshape.
  destruct (insert_run key number w Hshape) as (slot' & -> & Hslot').
  simpl. unfold insert_table. do 2 f_equal.
  apply chain_inj. by rewrite chain_to_slot.
Qed.

Lemma insert_table_shape key number t :
  shape_ok t -> shape_ok (insert_table key number t).
Proof.
  intros [Hsz Hlen]. split; simpl; [done|]. by rewrite length_insert.
Qed.

Lemma slot_of_insert_table key number t key' :
  shape_ok t ->
  slot_of (insert_table key number t) key' =
  if decide (hash_index t key' = hash_index t key)
  then to_slot (upsert key number (chain (slot_of t key)))
  else slot_of t key'.
Proof.
  intros [Hsz Hlen]. unfold slot_of at 1. unfold hash_index at 1. simpl.
  fold (hash_index t key').
  pose proof (hash_index_range t key Hsz).
  pose proof (hash_index_range t key' Hsz).
  destruct (decide (hash_index t key' = hash_index t key)) as [->|Hne].
  - rewrite list_lookup_insert_eq by lia. done.
  - rewrite list_lookup_insert_ne by lia. done.
Qed.

Section MoreLists.

Implicit Types (l : list entry) (key number : string).

Lemma upsert_upsert key v1 v2 l :
  upsert key v2 (upsert key v1 l) = upsert key v2 l.
Proof.
  induction l as [|[k c] l IH]; simpl.
  - by rewrite String.eqb_refl.
  - destruct (String.eqb k key) eqn:E; simpl; rewrite E; [done|].
    by rewrite IH.
Qed.

Lemma upsert_new key number l :
  ~ In key (map fst l) ->
  upsert key number l = l ++ [(key, Contact.mk key number)].
Proof.
  induction l as [|[k c] l IH]; simpl; [done|].
  destruct (String.eqb k key) eqn:E.
  - apply String.eqb_eq in E. tauto.
  - intros Hn. rewrite IH; tauto.
Qed.

Lemma find_key_NoDup key c l :
  NoDup (map fst l) -> In (key, c) l -> find_key key l = Some c.
Proof.
  induction l as [|[k c'] l IH]; simpl; [tauto|].
  intros [Hk Hnd]%NoDup_cons [Heq|Hin].
  - simplify_eq. by rewrite String.eqb_refl.
  - destruct (String.eqb k key) eqn:E; [|by apply IH].
    apply String.eqb_eq in E. subst k. exfalso. apply Hk.
    apply list_elem_of_In, in_map_iff. by exists (key, c).
Qed.

Lemma visited_found key c l j :
  NoDup (map fst l) -> l !! j = Some (key, c) ->
  visited key l = Datatypes.S j /\ find_key key l = Some c.
Proof.
  revert j. induction l as [|[k c'] l IH]; intros j Hnd Hj; [done|].
  apply NoDup_cons in Hnd as [Hk Hnd]. simpl. destruct j as [|j]; simpl in Hj.
  - simplify_eq. by rewrite String.eqb_refl.
  - destruct (String.eqb k key) eqn:E.
    + apply String.eqb_eq in E. subst k. exfalso. apply Hk.
      apply list_elem_of_In, in_map_iff. exists (key, c). split; [done|].
      apply list_elem_of_In, list_elem_of_lookup. eauto.
    + destruct (IH j Hnd Hj) as [-> ->]. done.
Qed.

Lemma visited_absent key l :
  ~ In key (map fst l) -> visited key l = length l.
Proof.
  induction l as [|[k c] l IH]; simpl; [done|].
  intros Hn. destruct (String.eqb k key) eqn:E.
  - apply String.eqb_eq in E. tauto.
  - rewrite IH; tauto.
Qed.

End MoreLists.

(** A record of the table is a record of the chain of the bucket of its
    key. *)
Lemma all_entries_bucket t key c :
  table_ok t ->
  In (key, c) (all_entries t) <-> In (key, c) (chain (slot_of t key)).
Proof.
  intros Hok. pose proof (table_ok_shape _ Hok) as Hshape.
  pose proof (slot_of_lookup t key Hshape) as Hslot. split.
  - intros (es & Hes & Hkc)%in_concat.
    apply in_map_iff in Hes as (slot & <- & Hin).
    apply list_elem_of_In, list_elem_of_lookup in Hin as [i Hi].
    destruct Hok as [_ _ Hchain].
    destruct (Hchain i slot Hi) as [_ Hhash].
    destruct (Hhash key c Hkc) as [Hidx _].
    unfold slot_of. rewrite Hidx, Nat2Z.id, Hi. done.
  - intros Hkc. apply in_concat. exists (chain (slot_of t key)).
    split; [|done]. apply in_map, list_elem_of_In, list_elem_of_lookup.
    eauto.
Qed.

Lemma lookup_key_None t key :
  table_ok t ->
  lookup_key t key = None <-> ~ In key (map fst (all_entries t)).
Proof.
  intros Hok. unfold lookup_key. rewrite find_key_None. split.
  - intros Hn Hin. apply Hn.
    apply in_map_iff in Hin as ([k c] & Heq & Hkc). simpl in Heq. subst k.
    apply in_map_iff. exists (key, c). split; [done|].
    by apply all_entries_bucket.
  - intros Hn Hin. apply Hn.
    apply in_map_iff in Hin as ([k c] & Heq & Hkc). simpl in Heq. subst k.
    apply in_map_iff. exists (key, c). split; [done|].
    by apply all_entries_bucket.
Qed.

Lemma lookup_key_Some t key c :
  table_ok t ->
  lookup_key t key = Some c <-> In (key, c) (all_entries t).
Proof.
  intros Hok. rewrite all_entries_bucket by done. unfold lookup_key. split.
  - apply find_key_In.
  - apply find_key_NoDup.
    pose proof (slot_of_lookup t key (table_ok_shape _ Hok)) as Hs.
    destruct Hok as [_ _ Hchain]. by destruct (Hchain _ _ Hs) as [Hnd _].
Qed.

Lemma search_result key w :
  shape_ok (self w) -> (search key w).1 = Return (lookup_key (self w) key).
Proof. intros Hshape. by rewrite search_run. Qed.

(** ** Inserts and searches, from any reachable state *)

(** X1. In a reachable state, a key just inserted is found with the number
    given, and the search of any other key returns what it returned before
    the insert, whether or not the two keys share a bucket. *)
Theorem insert_read_back w key number :
  reachable w ->
  (search key (insert key number w).2).1 =
    Return (Some (Contact.mk key number)) /\
  forall key',
    key' <> key ->
    (search key' (insert key number w).2).1 = (search key' w).1.
Proof.
  intros Hok%reachable_ok. pose proof (table_ok_shape _ Hok) as Hshape.
  pose proof (table_ok_shape _ (insert_ok key number w Hok)) as Hshape'.
  split.
  - rewrite search_result by done. by rewrite lookup_key_insert.
  - intros key' Hne. rewrite !search_result by done.
    by rewrite lookup_key_insert_ne.
Qed.

Lemma insert_read_back_witness :
  reachable after_amy /\
  (search "May" after_may).1 =
    Return (Some (Contact.mk "May" "222-333-1111")) /\
  (search "Amy" after_may).1 = (search "Amy" after_amy).1.
Proof.
  assert (Hreach : reachable after_amy).
  { reach_example. }
  split; [exact Hreach|].
  destruct (insert_read_back after_amy "May" "222-333-1111" Hreach)
    as [Hsame Hother].
  split; [exact Hsame|]. apply Hother. discriminate.
Defined.

(** X2. The last insert of a key wins: two inserts of one key leave the
    table that the second alone leaves, and an insert repeated with the
    same number changes nothing more. *)
Theorem insert_last_wins w key v1 v2 :
  reachable w ->
  self (insert key v2 (insert key v1 w).2).2 = self (insert key v2 w).2 /\
  self (insert key v1 (insert key v1 w).2).2 = self (insert key v1 w).2.
Proof.
  intros Hok%reachable_ok. pose proof (table_ok_shape _ Hok) as Hshape.
  assert (Hgen : forall a b,
            insert_table key b (insert_table key a (self w)) =
            insert_table key b (self w)).
  { intros a b. unfold insert_table at 1.
    rewrite slot_of_insert_table by done.
    destruct (decide _) as [_|Hne]; [|done].
    rewrite chain_to_slot, upsert_upsert. unfold insert_table. simpl.
    unfold hash_index. simpl. by rewrite list_insert_insert_eq. }
  assert (Hs : forall a, shape_ok (self (insert key a w).2)).
  { intros a. rewrite insert_self by done. by apply insert_table_shape. }
  split.
  - rewrite (insert_self key v2 (insert key v1 w).2) by done.
    rewrite !insert_self by done. apply Hgen.
  - rewrite (insert_self key v1 (insert key v1 w).2) by done.
    rewrite !insert_self by done. apply Hgen.
Qed.

Lemma insert_last_wins_witness :
  reachable after_john /\
  self (insert "Rebecca" "999-444-9999" after_rebecca).2 =
    self (insert "Rebecca" "999-444-9999" after_john).2 /\
  self (insert "Rebecca" "111-555-0002" after_rebecca).2 =
    self after_rebecca.
Proof.
  assert (Hreach : reachable after_john).
  { reach_example. }
  split; [exact Hreach|].
  exact (insert_last_wins after_john "Rebecca" "111-555-0002"
           "999-444-9999" Hreach).
Defined.

(** X3. Inserts of two distinct keys commute for every search: whichever
    is made first, each key is found with the same record afterwards. When
    the two keys have different bucket indices the two orders leave the
    same table. *)
Theorem insert_commute w k1 v1 k2 v2 :
  reachable w ->
  k1 <> k2 ->
  (forall key,
     (search key (insert k2 v2 (insert k1 v1 w).2).2).1 =
     (search key (insert k1 v1 (insert k2 v2 w).2).2).1) /\
  (hash_index (self w) k1 <> hash_index (self w) k2 ->
   self (insert k2 v2 (insert k1 v1 w).2).2 =
   self (insert k1 v1 (insert k2 v2 w).2).2).
Proof.
  intros Hok%reachable_ok Hne.
  pose proof (table_ok_shape _ Hok) as Hshape.
  pose proof (insert_ok k1 v1 w Hok) as Hok1.
  pose proof (insert_ok k2 v2 w Hok) as Hok2.
  pose proof (table_ok_shape _ Hok1) as Hshape1.
  pose proof (table_ok_shape _ Hok2) as Hshape2.
  split.
  - intros key.
    rewrite !search_result by by apply table_ok_shape, insert_ok.
    f_equal.
    destruct (decide (key = k2)) as [->|Hk2].
    + rewrite lookup_key_insert by done.
      rewrite lookup_key_insert_ne by done. by rewrite lookup_key_insert.
    + rewrite lookup_key_insert_ne by done.
      destruct (decide (key = k1)) as [->|Hk1].
      * by rewrite !lookup_key_insert.
      * by rewrite !lookup_key_insert_ne.
  - intros Hidx.
    rewrite (insert_self k2 v2 (insert k1 v1 w).2) by done.
    rewrite (insert_self k1 v1 (insert k2 v2 w).2) by done.
    rewrite !insert_self by done.
    unfold insert_table at 1 3. rewrite !slot_of_insert_table by done.
    destruct (decide (hash_index (self w) k2 = hash_index (self w) k1));
      [congruence|].
    destruct (decide (hash_index (self w) k1 = hash_index (self w) k2));
      [congruence|].
    unfold insert_table, hash_index. simpl. f_equal.
    apply list_insert_insert_ne.
    destruct Hshape as [Hsz _].
    pose proof (hash_index_range (self w) k1 Hsz).
    pose proof (hash_index_range (self w) k2 Hsz).
    unfold hash_index in *. lia.
Qed.

Lemma insert_commute_witness :
  reachable empty10 /\
  "John" <> "Rebecca" /\
  hash_index (self empty10) "John" <> hash_index (self empty10) "Rebecca" /\
  (search "John" after_rebecca).1 =
    (search "John"
       (insert "John" "909-876-1234"
          (insert "Rebecca" "111-555-0002" empty10).2).2).1 /\
  self after_rebecca =
    self (insert "John" "909-876-1234"
            (insert "Rebecca" "111-555-0002" empty10).2).2.
Proof.
  assert (Hreach : reachable empty10).
  { reach_example. }
  assert (Hne : "John" <> "Rebecca") by discriminate.
  assert (Hidx : hash_index (self empty10) "John" <>
                 hash_index (self empty10) "Rebecca") by discriminate.
  split; [exact Hreach|]. split; [exact Hne|]. split; [exact Hidx|].
  destruct (insert_commute empty10 "John" "909-876-1234" "Rebecca"
              "111-555-0002" Hreach Hne) as [Hsearch Hself].
  split; [exact (Hsearch "John") | exact (Hself Hidx)].
Defined.

(** X4. In a reachable state [search] finds exactly the records of the
    table: it returns a record if and only if that record, under the key
    searched, is in some chain, and [None] if and only if no record of the
    table has the key; a record returned carries the key as its name. *)
Theorem search_iff_member w key :
  reachable w ->
  (forall c,
     (search key w).1 = Return (Some c) <->
     In (key, c) (all_entries (self w))) /\
  ((search key w).1 = Return None <->
   ~ In key (map fst (all_entries (self w)))) /\
  (forall c, (search key w).1 = Return (Some c) -> Contact.name c = key).
Proof.
  intros Hok%reachable_ok. pose proof (table_ok_shape _ Hok) as Hshape.
  rewrite search_result by done.
  assert (Hinj : forall o : option Contact.t,
            Return (lookup_key (self w) key) = Return o <->
            lookup_key (self w) key = o).
  { intros o. split; [by intros [= ->] | by intros ->]. }
  split_and!.
  - intros c. rewrite Hinj. by apply lookup_key_Some.
  - rewrite Hinj. by apply lookup_key_None.
  - intros c Hc. apply Hinj, lookup_key_Some, all_entries_bucket in Hc;
      [|done..].
    pose proof (slot_of_lookup (self w) key Hshape) as Hs.
    destruct Hok as [_ _ Hchain].
    destruct (Hchain _ _ Hs) as [_ Hin]. by destruct (Hin key c Hc).
Qed.

Lemma search_iff_member_witness :
  reachable after_may /\
  ((search "Chris" after_may).1 = Return None <->
   ~ In "Chris" (map fst (all_entries (self after_may)))).
Proof.
  assert (Hreach : reachable after_may).
  { reach_example. }
  split; [exact Hreach|].
  exact (proj1 (proj2 (search_iff_member after_may "Chris" Hreach))).
Defined.

(** ** The records of the table around an insert *)

Lemma all_entries_insert_table t key number :
  shape_ok t ->
  exists before after,
    all_entries t = before ++ chain (slot_of t key) ++ after /\
    all_entries (insert_table key number t) =
      before ++ upsert key number (chain (slot_of t key)) ++ after.
Proof.
  intros Hshape. pose proof (slot_of_lookup t key Hshape) as Hslot.
  destruct Hshape as [Hsz Hlen].
  pose proof (hash_index_range t key Hsz) as Hidx.
  set (i := Z.to_nat (hash_index t key)) in *.
  exists (concat (map chain (take i (data t)))),
         (concat (map chain (drop (Datatypes.S i) (data t)))).
  unfold all_entries, insert_table. simpl. fold i. split.
  - rewrite <- (take_drop_middle _ _ _ Hslot) at 1.
    by rewrite map_app, concat_app.
  - rewrite insert_take_drop by lia.
    rewrite map_app, concat_app. simpl. by rewrite chain_to_slot.
Qed.

(** X5. In a reachable state, the insert of a key that [search] does not
    find appends its record at the end of the chain of its bucket and the
    table has one record more; the insert of a key that [search] finds
    keeps the keys of the chain and the number of records of the table. *)
Theorem insert_record_count w key number :
  reachable w ->
  let w' := (insert key number w).2 in
  ((search key w).1 = Return None ->
   chain (slot_of (self w') key) =
     chain (slot_of (self w) key) ++ [(key, Contact.mk key number)] /\
   length (all_entries (self w')) =
     Datatypes.S (length (all_entries (self w)))) /\
  (forall c,
     (search key w).1 = Return (Some c) ->
     keys (slot_of (self w') key) = keys (slot_of (self w) key) /\
     length (all_entries (self w')) = length (all_entries (self w))).
Proof.
  intros Hok%reachable_ok w'. pose proof (table_ok_shape _ Hok) as Hshape.
  destruct (all_entries_insert_table (self w) key number Hshape)
    as (before & after & Hall & Hall').
  assert (Hchain : chain (slot_of (self w') key) =
                   upsert key number (chain (slot_of (self w) key))).
  { unfold w'. by rewrite slot_of_insert. }
  rewrite <- (insert_self key number w Hshape) in Hall'. fold w' in Hall'.
  rewrite search_result by done. split.
  - intros [= Hnone]. apply find_key_None in Hnone.
    rewrite Hchain, Hall', Hall, upsert_new by done.
    split; [done|]. rewrite !length_app. simpl. lia.
  - intros c [= Hsome]. apply find_key_In in Hsome.
    assert (Hin : In key (map fst (chain (slot_of (self w) key)))).
    { apply in_map_iff. by exists (key, c). }
    split.
    + unfold keys. rewrite Hchain. by apply upsert_keys_in.
    + rewrite Hall', Hall, !length_app, upsert_length_in by done. done.
Qed.

Lemma insert_record_count_witness :
  reachable after_amy /\
  (search "May" after_amy).1 = Return None /\
  chain (slot_of (self after_may) "May") =
    chain (slot_of (self after_amy) "May") ++
    [("May", Contact.mk "May" "222-333-1111")] /\
  length (all_entries (self after_may)) =
    Datatypes.S (length (all_entries (self after_amy))).
Proof.
  assert (Hreach : reachable after_amy).
  { reach_example. }
  assert (Hnone : (search "May" after_amy).1 = Return None) by reflexivity.
  split; [exact Hreach|]. split; [exact Hnone|].
  exact (proj1 (insert_record_count after_amy "May" "222-333-1111" Hreach)
           Hnone).
Defined.

(** X6. In every reachable state the capacity is positive, the array has
    exactly as many slots as the capacity, and the name of every record is
    the key of its node. *)
Theorem reachable_shape w :
  reachable w ->
  0 < size (self w) /\
  Z.of_nat (length (data (self w))) = size (self w) /\
  forall i slot key c,
    data (self w) !! i = Some slot -> In (key, c) (chain slot) ->
    Contact.name c = key.
Proof.
  intros [Hsz Hlen Hchain]%reachable_ok. split_and!; [done..|].
  intros i slot key c Hi Hkc. destruct (Hchain i slot Hi) as [_ Hin].
  by destruct (Hin key c Hkc).
Qed.

Lemma reachable_shape_witness :
  reachable after_update /\
  0 < size (self after_update) /\
  Z.of_nat (length (data (self after_update))) = size (self after_update).
Proof.
  assert (Hreach : reachable after_update).
  { reach_example. }
  split; [exact Hreach|].
  destruct (reachable_shape after_update Hreach) as (H1 & H2 & _).
  split; [exact H1 | exact H2].
Defined.

(** ** The hash of rearranged keys *)

Lemma fold_ord_Permutation (l1 l2 : list ascii) a :
  Permutation l1 l2 ->
  fold_left (fun total ch => total + ord ch) l1 a =
  fold_left (fun total ch => total + ord ch) l2 a.
Proof.
  intros Hp. revert a.
  induction Hp as [|x l l' _ IH|x y l|l l' l'' _ IH1 _ IH2]; intros a; simpl.
  - done.
  - apply IH.
  - f_equal. lia.
  - by rewrite IH1.
Qed.

(** X7. [hash_function] does not see the order of the characters: two keys
    with the same characters, in any order, get the same result in every
    state, so they always share a bucket. *)
Theorem hash_function_anagram (w : state) k1 k2 :
  Permutation (list_ascii_of_string k1) (list_ascii_of_string k2) ->
  hash_function k1 w = hash_function k2 w.
Proof.
  intros Hp. unfold hash_function, hash_total.
  by rewrite (fold_ord_Permutation _ _ 0 Hp).
Qed.

Lemma hash_function_anagram_witness :
  Permutation (list_ascii_of_string "ab") (list_ascii_of_string "ba") /\
  hash_function "ab" after_john = hash_function "ba" after_john.
Proof.
  assert (Hp : Permutation (list_ascii_of_string "ab")
                           (list_ascii_of_string "ba")) by apply perm_swap.
  split; [exact Hp|].
  exact (hash_function_anagram after_john "ab" "ba" Hp).
Defined.

(** ** The cost of a search *)

(** X8. In a reachable state, the search of a key whose record is at
    position [j] of the chain of its bucket returns that record after
    [j + 1] executions of the loop body, and the search of a key that the
    chain does not have returns [None] after one execution per node of the
    chain; in both cases nothing else changes. *)
Theorem search_steps w key :
  reachable w ->
  (forall j c,
     chain (slot_of (self w) key) !! j = Some (key, c) ->
     search key w = (Return (Some c), add_ticks (Datatypes.S j) w)) /\
  (~ In key (keys (slot_of (self w) key)) ->
   search key w =
   (Return None, add_ticks (length (chain (slot_of (self w) key))) w)).
Proof.
  intros Hok%reachable_ok. pose proof (table_ok_shape _ Hok) as Hshape.
  rewrite search_run by done. split.
  - intros j c Hj.
    pose proof (slot_of_lookup (self w) key Hshape) as Hs.
    destruct Hok as [_ _ Hchain]. destruct (Hchain _ _ Hs) as [Hnd _].
    by destruct (visited_found key c _ j Hnd Hj) as [-> ->].
  - intros Hn. rewrite visited_absent by done.
    by apply find_key_None in Hn as ->.
Qed.

Lemma search_steps_witness :
  reachable after_may /\
  chain (slot_of (self after_may) "May") !! 1%nat =
    Some ("May", Contact.mk "May" "222-333-1111") /\
  search "May" after_may =
    (Return (Some (Contact.mk "May" "222-333-1111")),
     add_ticks 2 after_may).
Proof.
  assert (Hreach : reachable after_may).
  { reach_example. }
  assert (Hj : chain (slot_of (self after_may) "May") !! 1%nat =
               Some ("May", Contact.mk "May" "222-333-1111"))
    by reflexivity.
  split; [exact Hreach|]. split; [exact Hj|].
  exact (proj1 (search_steps after_may "May" Hreach) 1%nat _ Hj).
Defined.

(** ** The printed table around an insert *)

Lemma render_table_lookup t i :
  render_table t !! i = render_bucket (Z.of_nat i) <$> data t !! i.
Proof. unfold render_table. by rewrite list_lookup_imap. Qed.

(** X9. In a reachable state, what [print_table] writes after an insert
    has as many lines as what it writes before, and the two differ at most
    in the line of the bucket of the key inserted. *)
Theorem print_table_after_insert w key number :
  reachable w ->
  let w' := (insert key number w).2 in
  exists lines lines',
    stdout (print_table w).2 = stdout w ++ lines /\
    stdout (print_table w').2 = stdout w' ++ lines' /\
    length lines' = length lines /\
    forall i,
      Z.of_nat i <> hash_index (self w) key -> lines' !! i = lines !! i.
Proof.
  intros Hok%reachable_ok w'. pose proof (table_ok_shape _ Hok) as Hshape.
  assert (Hshape' : shape_ok (self w')).
  { by apply table_ok_shape, insert_ok. }
  exists (render_table (self w)), (render_table (self w')).
  rewrite !print_table_run by done. simpl. split_and!; [done..| |].
  - unfold render_table, w'. rewrite !length_imap, insert_self by done.
    simpl. by rewrite length_insert.
  - intros i Hne. rewrite !render_table_lookup. unfold w'.
    rewrite insert_self by done. simpl.
    rewrite list_lookup_insert_ne; [done|].
    destruct Hshape as [Hsz _].
    pose proof (hash_index_range (self w) key Hsz). lia.
Qed.

Lemma print_table_after_insert_witness :
  reachable after_may /\
  exists lines lines',
    stdout (print_table after_may).2 = stdout after_may ++ lines /\
    stdout (print_table after_update).2 = stdout after_update ++ lines' /\
    length lines' = length lines /\
    forall i,
      Z.of_nat i <> hash_index (self after_may) "Rebecca" ->
      lines' !! i = lines !! i.
Proof.
  assert (Hreach : reachable after_may).
  { reach_example. }
  split; [exact Hreach|].
  exact (print_table_after_insert after_may "Rebecca" "999-444-9999" Hreach).
Defined.

(** ** A fresh table filled from a list of pairs *)

Lemma init_all_entries size t : init size = Return t -> all_entries t = [].
Proof.
  unfold init. destruct (size <=? 0); [discriminate|]. intros [= <-].
  unfold all_entries. simpl.
  induction (Z.to_nat size) as [|m IH]; [done | apply IH].
Qed.

Lemma last_value_is_Some key kvs :
  In key (map fst kvs) -> exists v, last_value key kvs = Some v.
Proof.
  induction kvs as [|[k v] kvs IH]; simpl; [tauto|].
  intros [->|Hin].
  - destruct (last_value key kvs); [eauto|].
    rewrite String.eqb_refl. eauto.
  - destruct (IH Hin) as [v' ->]. eauto.
Qed.

Lemma insert_all_cons k v kvs w :
  shape_ok (self w) ->
  insert_all ((k, v) :: kvs) w = insert_all kvs (insert k v w).2.
Proof.
  intros Hshape. unfold insert_all. simpl. unfold bind.
  by rewrite (insert_returns k v w Hshape).
Qed.

Lemma insert_all_count kvs w w' :
  table_ok (self w) ->
  NoDup (map fst kvs) ->
  (forall k, In k (map fst kvs) -> lookup_key (self w) k = None) ->
  insert_all kvs w = (Return tt, w') ->
  length (all_entries (self w')) =
  (length (all_entries (self w)) + length kvs)%nat.
Proof.
  revert w. induction kvs as [|[k v] kvs IH]; intros w Hok Hnd Hnew Hrun.
  - injection Hrun as <-. simpl. lia.
  - pose proof (table_ok_shape _ Hok) as Hshape.
    rewrite insert_all_cons in Hrun by done.
    simpl in Hnd. apply NoDup_cons in Hnd as [Hk Hnd].
    assert (Hnew' : forall k',
              In k' (map fst kvs) ->
              lookup_key (self (insert k v w).2) k' = None).
    { intros k' Hin. rewrite lookup_key_insert_ne; [|done|].
      - apply Hnew. by right.
      - intros ->. by apply Hk, list_elem_of_In. }
    rewrite (IH _ (insert_ok k v w Hok) Hnd Hnew' Hrun).
    destruct (all_entries_insert_table (self w) k v Hshape)
      as (before & after & Hall & Hall').
    rewrite insert_self, Hall', Hall by done.
    assert (Hn : ~ In k (map fst (chain (slot_of (self w) k)))).
    { apply find_key_None. apply Hnew. by left. }
    rewrite upsert_new by done. rewrite !length_app. simpl. lia.
Qed.

(** X10. After the pairs of any list, keys repeated or not, are inserted
    into a table just constructed, the keys of the table are exactly the
    keys of the list, [search] of a key returns the value of its last pair
    in the list, and, the keys being distinct, the table has one record per
    pair; the inserts write nothing. *)
Theorem insert_all_contents size t out n kvs :
  init size = Return t ->
  exists w',
    insert_all kvs (World t out n) = (Return tt, w') /\
    stdout w' = out /\
    (forall key,
       In key (map fst (all_entries (self w'))) <-> In key (map fst kvs)) /\
    (forall key v,
       last_value key kvs = Some v ->
       (search key w').1 = Return (Some (Contact.mk key v))) /\
    (NoDup (map fst kvs) -> length (all_entries (self w')) = length kvs).
Proof.
  intros Hinit. pose proof (init_ok _ _ Hinit) as Hok0.
  destruct (insert_all_run kvs (World t out n) Hok0)
    as (w' & Hrun & Hok & Hout & Hlook).
  simpl in Hlook.
  assert (Hlook' : forall key,
            lookup_key (self w') key =
            (fun v => Contact.mk key v) <$> last_value key kvs).
  { intros key. rewrite Hlook. destruct (last_value key kvs); [done|].
    by apply (init_lookup_key size). }
  exists w'. split_and!; [done..| | |].
  - intros key. split.
    + intros Hin. destruct (in_dec string_dec key (map fst kvs)) as [?|Hn];
        [done|]. exfalso. revert Hin. apply lookup_key_None; [done|].
      by rewrite Hlook', last_value_None.
    + intros Hin. destruct (last_value_is_Some key kvs Hin) as [v Hv].
      destruct (in_dec string_dec key (map fst (all_entries (self w'))))
        as [?|Hn]; [done|].
      apply lookup_key_None in Hn; [|done].
      rewrite Hlook', Hv in Hn. discriminate.
  - intros key v Hv. rewrite search_result by by apply table_ok_shape.
    by rewrite Hlook', Hv.
  - intros Hnd.
    rewrite (insert_all_count kvs (World t out n) w' Hok0 Hnd); [| |done].
    + simpl. by rewrite (init_all_entries size).
    + intros k _. by apply (init_lookup_key size).
Qed.

Lemma insert_all_contents_witness :
  init 10 = Return (self empty10) /\
  exists w',
    insert_all [("Rebecca", "111-555-0002"); ("John", "909-876-1234");
                ("Rebecca", "999-444-9999")] empty10 = (Return tt, w') /\
    (search "Rebecca" w').1 =
      Return (Some (Contact.mk "Rebecca" "999-444-9999")).
Proof.
  split; [reflexivity|].
  destruct (insert_all_contents 10 (self empty10) [] 0
              [("Rebecca", "111-555-0002"); ("John", "909-876-1234");
               ("Rebecca", "999-444-9999")] eq_refl)
    as (w' & Hrun & _ & _ & Hlast & _).
  exists w'. split; [exact Hrun|]. apply Hlast. reflexivity.
Defined.

Lemma insert_all_order_from kvs :
  forall w before,
    shape_ok (self w) ->
    NoDup (map fst (before ++ kvs)) ->
    (forall i slot,
       data (self w) !! i = Some slot ->
       chain slot = map entry_of (bucket_pairs (size (self w)) i before)) ->
    exists w',
      insert_all kvs w = (Return tt, w') /\
      forall i slot,
        data (self w') !! i = Some slot ->
        chain slot =
        map entry_of (bucket_pairs (size (self w)) i (before ++ kvs)).
Proof.
  induction kvs as [|[k v] kvs IH]; intros w before Hshape Hnd Hinv.
  - exists w. split; [done|]. by rewrite app_nil_r.
  - rewrite insert_all_cons by done.
    pose proof Hshape as [Hsz Hlen].
    pose proof (hash_index_range (self w) k Hsz) as Hidx.
    pose proof (slot_of_lookup (self w) k Hshape) as Hslot.
    assert (Hfresh : ~ In k (map fst before)).
    { rewrite map_app in Hnd. simpl in Hnd.
      apply NoDup_app in Hnd as (_ & Hdisj & _).
      intros Hin%list_elem_of_In. apply (Hdisj k Hin). by left. }
    destruct (IH (insert k v w).2 (before ++ [(k, v)])) as (w' & Hrun & Hw').
    + rewrite insert_self by done. by apply insert_table_shape.
    + by rewrite <- app_assoc.
    + rewrite insert_self by done. simpl. intros i slot Hi.
      unfold bucket_pairs. rewrite filter_app.
      destruct (decide (i = Z.to_nat (hash_index (self w) k))) as [->|Hne].
      * rewrite list_lookup_insert_eq in Hi by lia. injection Hi as <-.
        rewrite chain_to_slot, (Hinv _ _ Hslot).
        rewrite upsert_new.
        2:{ intros Hin. apply Hfresh.
            apply in_map_iff in Hin as ([k' c] & Hk' & Hin).
            apply in_map_iff in Hin as ([k'' v''] & Heq & Hin).
            apply list_elem_of_In, list_elem_of_filter in Hin as [_ Hin].
            unfold entry_of in Heq. simpl in *. simplify_eq.
            apply in_map_iff. exists (k, v''). split; [done|].
            by apply list_elem_of_In. }
        rewrite filter_cons_True by (simpl; unfold hash_index in *; lia).
        by rewrite map_app.
      * rewrite list_lookup_insert_ne in Hi by done.
        rewrite (Hinv _ _ Hi).
        rewrite filter_cons_False.
        2:{ simpl. unfold hash_index in *. lia. }
        by rewrite filter_nil, app_nil_r.
    + exists w'. split; [done|]. intros i slot Hi.
      rewrite (Hw' i slot Hi), insert_self by done. simpl.
      by rewrite <- app_assoc.
Qed.

(** X11. Chain order is insertion order: after pairs with distinct keys
    are inserted into a table just constructed, the chain of each bucket
    holds the records of the pairs whose keys have the index of the bucket,
    in the order in which the pairs were inserted. *)
Theorem insert_all_order size t out n kvs :
  init size = Return t ->
  NoDup (map fst kvs) ->
  exists w',
    insert_all kvs (World t out n) = (Return tt, w') /\
    forall i slot,
      data (self w') !! i = Some slot ->
      chain slot = map entry_of (bucket_pairs size i kvs).
Proof.
  intros Hinit Hnd. pose proof (init_ok _ _ Hinit) as Hok.
  assert (Hsize : HashTable.size t = size).
  { unfold init in Hinit. destruct (size <=? 0); [discriminate|].
    by injection Hinit as <-. }
  destruct (insert_all_order_from kvs (World t out n) [])
    as (w' & Hrun & Hw').
  - by apply table_ok_shape.
  - done.
  - simpl. intros i slot Hi. unfold init in Hinit.
    destruct (size <=? 0); [discriminate|]. injection Hinit as <-.
    simpl in Hi. by apply lookup_replicate in Hi as [-> _].
  - exists w'. split; [done|]. intros i slot Hi.
    rewrite (Hw' i slot Hi). simpl. by rewrite Hsize.
Qed.

Lemma insert_all_order_witness :
  init 10 = Return (self empty10) /\
  NoDup (map fst [("Amy", "111-222-3333"); ("John", "909-876-1234");
                  ("May", "222-333-1111")]) /\
  exists w',
    insert_all [("Amy", "111-222-3333"); ("John", "909-876-1234");
                ("May", "222-333-1111")] empty10 = (Return tt, w') /\
    forall slot,
      data (self w') !! 5%nat = Some slot ->
      chain slot =
      [("Amy", Contact.mk "Amy" "111-222-3333");
       ("May", Contact.mk "May" "222-333-1111")].
Proof.
  assert (Hnd : NoDup (map fst [("Amy", "111-222-3333");
                                ("John", "909-876-1234");
                                ("May", "222-333-1111")])).
  { apply (bool_decide_unpack _). vm_compute. exact I. }
  split; [reflexivity|]. split; [exact Hnd|].
  destruct (insert_all_order 10 (self empty10) [] 0
              [("Amy", "111-222-3333"); ("John", "909-876-1234");
               ("May", "222-333-1111")] eq_refl Hnd) as (w' & Hrun & Hw').
  exists w'. split; [exact Hrun|].
  intros slot Hslot. exact (Hw' 5%nat slot Hslot).
Defined.
